(** * Pickasso: selection of diverse examples

    A shallow embedding of [src/lib.ts] (the selection core of the
    [pickasso] package): the flattener, the default distance metric, the
    completeness score, the samplers and the greedy selector, and of
    [getNestedValue] of [src/run.ts], followed by the properties established
    about them.

    Conventions of the embedding.

    - A JavaScript [number] is an element of a carrier [num] equipped with
      the operations the source uses (class [Number]).  Two carriers are
      provided: [float], the IEEE-754 binary64 numbers of the kernel, which
      is what the program computes with, and [exact], the rationals extended
      with the special values [+Infinity], [-Infinity] and [NaN], which is
      the reading of the program in which no operation rounds.
    - Counts that the source keeps in a [number] but that only ever hold a
      length or a loop index ([validComparisons], [items.length], indices)
      are [nat]; [numExamples] and [sampleSize] are integers ([Z]).
    - An object is the list of its own enumerable properties in the order
      [Object.keys] lists them; keys are unique.  Properties inherited from
      [Object.prototype], the special ordering of integer-like keys and the
      setter behind the name [__proto__] are not modelled: an assignment
      [acc[key] = v] adds a new key as the last property.  Where the order
      of the paths of a flattening or the presence of such a name matters, a
      property is stated for paths that are [ordinary_key]s.
    - The elements of [items] are object references: a type [T] with
      decidable equality (the identity [===] compares) and a function [view]
      that reads the record a reference points to.
    - [Math.random()] is drawn from an explicit entropy list.
    - The identity-keyed [flattenCache] only memoises [flattenObject], a pure
      function, and is left out. *)

From Stdlib Require Import ZArith QArith Qcanon List Ascii Uint63 Floats.
From stdpp Require Import base decidable option list numbers strings gmap pretty.

Local Open Scope Z_scope.
Local Set Warnings "-register-all".

(** ** Numbers *)

Class Number (num : Type) : Type := {
  of_Z : Z → num;
  nadd : num → num → num;
  nsub : num → num → num;
  nmul : num → num → num;
  ndiv : num → num → num;
  nabs : num → num;
  nltb : num → num → bool;     (* [a < b]; [a > b] is [nltb b a] *)
  nmax : num → num → num;      (* [Math.max(a, b)] *)
  nmin : num → num → num;      (* [Math.min(a, b)] *)
  infinity : num
}.

Definition of_nat {num : Type} `{!Number num} (n : nat) : num :=
  of_Z (Z.of_nat n).
Definition ngtb {num : Type} `{!Number num} (a b : num) : bool := nltb b a.

(** *** binary64 *)

Module Float64.

Definition of_Z (z : Z) : float :=
  match z with
  | Z0 => PrimFloat.zero
  | Zpos _ => PrimFloat.of_uint63 (Uint63.of_Z z)
  | Zneg p => PrimFloat.opp (PrimFloat.of_uint63 (Uint63.of_Z (Zpos p)))
  end.

(* [Math.max] and [Math.min] return NaN as soon as one argument is NaN. *)
Definition max (a b : float) : float :=
  if PrimFloat.is_nan a then a
  else if PrimFloat.is_nan b then b
  else if PrimFloat.ltb a b then b else a.

Definition min (a b : float) : float :=
  if PrimFloat.is_nan a then a
  else if PrimFloat.is_nan b then b
  else if PrimFloat.ltb b a then b else a.

End Float64.

#[global] Instance float_Number : Number float := {|
  of_Z := Float64.of_Z;
  nadd := PrimFloat.add;
  nsub := PrimFloat.sub;
  nmul := PrimFloat.mul;
  ndiv := PrimFloat.div;
  nabs := PrimFloat.abs;
  nltb := PrimFloat.ltb;
  nmax := Float64.max;
  nmin := Float64.min;
  infinity := PrimFloat.infinity
|}.

(** *** Exact arithmetic *)

Inductive exact : Type :=
| Fin (q : Qc)
| PosInf
| NegInf
| NaN.

Module Exact.

Local Open Scope Qc_scope.

Definition qltb (a b : Qc) : bool := bool_decide (a < b).

Definition opp (a : exact) : exact :=
  match a with
  | Fin q => Fin (- q)
  | PosInf => NegInf
  | NegInf => PosInf
  | NaN => NaN
  end.

Definition add (a b : exact) : exact :=
  match a, b with
  | NaN, _ | _, NaN => NaN
  | Fin p, Fin q => Fin (p + q)
  | PosInf, NegInf | NegInf, PosInf => NaN
  | PosInf, _ | _, PosInf => PosInf
  | NegInf, _ | _, NegInf => NegInf
  end.

Definition sub (a b : exact) : exact := add a (opp b).

(* the sign of an infinite product or quotient; a zero factor gives NaN *)
Definition signed_inf (positive : bool) : exact :=
  if positive then PosInf else NegInf.

Definition mul_inf (positive : bool) (q : Qc) : exact :=
  if qltb 0 q then signed_inf positive
  else if qltb q 0 then signed_inf (negb positive)
  else NaN.

Definition mul (a b : exact) : exact :=
  match a, b with
  | NaN, _ | _, NaN => NaN
  | Fin p, Fin q => Fin (p * q)
  | Fin p, PosInf | PosInf, Fin p => mul_inf true p
  | Fin p, NegInf | NegInf, Fin p => mul_inf false p
  | PosInf, PosInf | NegInf, NegInf => PosInf
  | PosInf, NegInf | NegInf, PosInf => NegInf
  end.

(* zero is read as +0 *)
Definition div (a b : exact) : exact :=
  match a, b with
  | NaN, _ | _, NaN => NaN
  | Fin p, Fin q =>
      if bool_decide (q = 0) then mul_inf true p else Fin (p / q)
  | Fin _, (PosInf | NegInf) => Fin 0
  | (PosInf | NegInf), (PosInf | NegInf) => NaN
  | PosInf, Fin q => signed_inf (negb (qltb q 0))
  | NegInf, Fin q => signed_inf (qltb q 0)
  end.

Definition abs (a : exact) : exact :=
  match a with
  | Fin q => Fin (if qltb q 0 then - q else q)
  | PosInf | NegInf => PosInf
  | NaN => NaN
  end.

Definition ltb (a b : exact) : bool :=
  match a, b with
  | NaN, _ | _, NaN => false
  | Fin p, Fin q => qltb p q
  | NegInf, (Fin _ | PosInf) => true
  | Fin _, PosInf => true
  | _, _ => false
  end.

Definition max (a b : exact) : exact :=
  match a, b with
  | NaN, _ | _, NaN => NaN
  | _, _ => if ltb a b then b else a
  end.

Definition min (a b : exact) : exact :=
  match a, b with
  | NaN, _ | _, NaN => NaN
  | _, _ => if ltb b a then b else a
  end.

End Exact.

#[global] Instance exact_Number : Number exact := {|
  of_Z := λ z, Fin (Qc_of_Z z);
  nadd := Exact.add;
  nsub := Exact.sub;
  nmul := Exact.mul;
  ndiv := Exact.div;
  nabs := Exact.abs;
  nltb := Exact.ltb;
  nmax := Exact.max;
  nmin := Exact.min;
  infinity := PosInf
|}.

(** ** Records and their flattening *)

Section Values.

Context {num : Type} `{!Number num}.

Inductive value : Type :=
| VUndefined
| VNull
| VBool (b : bool)
| VNum (n : num)
| VStr (s : string)
| VObj (props : list (string * value))
| VArr (elems : list value).

(** [Record<string, any>] as built by assignments [acc[k] = v]. *)
Definition flat : Type := list (string * value).

Definition Object_keys (o : flat) : list string := o.*1.
Definition Object_values (o : flat) : list value := o.*2.

(* [o[k]]: the value of the property, [undefined] when there is none *)
Fixpoint obj_get (o : flat) (k : string) : value :=
  match o with
  | [] => VUndefined
  | (k', v) :: o' => if decide (k' = k) then v else obj_get o' k
  end.

(* [o[k] = v]: overwrite in place, or add as the last property *)
Fixpoint obj_set (o : flat) (k : string) (v : value) : flat :=
  match o with
  | [] => [(k, v)]
  | (k', v') :: o' =>
      if decide (k' = k) then (k', v) :: o' else (k', v') :: obj_set o' k v
  end.

Definition Object_assign (target source : flat) : flat :=
  fold_left (λ acc kv, obj_set acc kv.1 kv.2) source target.

(* [typeof v === "object" && v !== null] *)
Definition is_object (v : value) : bool :=
  match v with
  | VObj _ | VArr _ => true
  | _ => false
  end.

(* [prefix ? `${prefix}.${key}` : key] *)
Definition fullKey (prefix key : string) : string :=
  match prefix with
  | EmptyString => key
  | _ => prefix +:+ "." +:+ key
  end.

Fixpoint flattenObject (obj : value) (prefix : string) {struct obj} : flat :=
  match obj with
  | VObj props =>
      (fix reduce (ps : list (string * value)) (acc : flat) : flat :=
         match ps with
         | [] => acc
         | (key, v) :: ps' =>
             reduce ps'
               (if is_object v
                then Object_assign acc (flattenObject v (fullKey prefix key))
                else obj_set acc (fullKey prefix key) v)
         end) props []
  | VArr elems =>
      (fix reduce (es : list value) (i : nat) (acc : flat) : flat :=
         match es with
         | [] => acc
         | v :: es' =>
             reduce es' (S i)
               (if is_object v
                then Object_assign acc
                       (flattenObject v (fullKey prefix (pretty i)))
                else obj_set acc (fullKey prefix (pretty i)) v)
         end) elems 0%nat []
  | _ => []
  end.

Definition getFlattenedObject (obj : value) : flat := flattenObject obj "".

(** ** Distance metric *)

(* [new Set(iterable)]: first occurrences, in insertion order *)
Definition Set_add (s : list string) (k : string) : list string :=
  if decide (k ∈ s) then s else s ++ [k].

Definition new_Set (l : list string) : list string :=
  fold_left Set_add l [].

(* [v === undefined] *)
Definition is_undefined (v : value) : bool :=
  match v with
  | VUndefined => true
  | _ => false
  end.

(* [val1 === val2] on the leaves of a flattened record, outside the case
   where both are numbers (which the source treats before) *)
Definition strict_eq (v1 v2 : value) : bool :=
  match v1, v2 with
  | VUndefined, VUndefined => true
  | VNull, VNull => true
  | VBool a, VBool b => bool_decide (a = b)
  | VStr a, VStr b => bool_decide (a = b)
  | _, _ => false
  end.

(* the body of the loop over [allKeys] *)
Definition distance_step (flat1 flat2 : flat) (st : num * nat) (key : string)
  : num * nat :=
  let '(distance, validComparisons) := st in
  let val1 := obj_get flat1 key in
  let val2 := obj_get flat2 key in
  if is_undefined val1 || is_undefined val2 then
    (nadd distance (of_Z 1), validComparisons)
  else
    match val1, val2 with
    | VNum n1, VNum n2 =>
        let maxVal := nmax (nabs n1) (nabs n2) in
        (nadd distance
           (if ngtb maxVal (of_Z 0)
            then ndiv (nabs (nsub n1 n2)) maxVal
            else of_Z 0),
         S validComparisons)
    | _, _ =>
        (nadd distance (if strict_eq val1 val2 then of_Z 0 else of_Z 1),
         S validComparisons)
    end.

Definition defaultDistance (obj1 obj2 : value) : num :=
  let flat1 := getFlattenedObject obj1 in
  let flat2 := getFlattenedObject obj2 in
  let allKeys := new_Set (Object_keys flat1 ++ Object_keys flat2) in
  let '(distance, validComparisons) :=
    fold_left (distance_step flat1 flat2) allKeys (of_Z 0, 0%nat) in
  if bool_decide (0 < validComparisons)%nat
  then ndiv distance (of_nat (length allKeys))
  else of_Z 1.

(** ** Completeness *)

(* [v !== undefined && v !== null] *)
Definition is_defined (v : value) : bool :=
  match v with
  | VUndefined | VNull => false
  | _ => true
  end.

Definition calculateCompleteness (obj : value) : num :=
  let flat := getFlattenedObject obj in
  let definedValues := List.filter is_defined (Object_values flat) in
  ndiv (of_nat (length definedValues)) (of_nat (length (Object_keys flat))).

End Values.

Arguments value num : clear implicits.
Arguments flat num : clear implicits.

(** ** Errors, options and the state of a run *)

Inductive PickassoError : Type :=
| mkPickassoError (message : string).

Inductive completion (A : Type) : Type :=
| Return (a : A)
| Throw (e : PickassoError).

Arguments Return {A} a.
Arguments Throw {A} e.

Section Selector.

Context {num : Type} `{!Number num}.
Context {T : Type} `{!EqDecision T}.
Variable view : T → value num.

Record SelectorOptions : Type := {
  numExamples : Z;
  sampleSize : option Z;
  prioritizeComplete : option bool;
  completenessWeight : option num;
  distanceFunction : option (T → T → num)
}.

Definition validateOptions (options : SelectorOptions) : completion unit :=
  if match completenessWeight options with
     | Some w => nltb w (of_Z 0) || ngtb w (of_Z 1)
     | None => false
     end
  then Throw (mkPickassoError "completenessWeight must be between 0 and 1")
  else if match sampleSize options with
          | Some s => bool_decide (s ≤ 0)
          | None => false
          end
  then Throw (mkPickassoError "sampleSize must be positive")
  else Return ().

(** What a run reads and writes besides its arguments: the draws of
    [Math.random()] still to come (each the numerator [r] of a value
    [r / 2^53] in [0, 1)), the [distanceCache], and the calls made to the
    distance function, oldest first. *)
Record run : Type := mkRun {
  entropy : list N;
  distanceCache : gmap string num;
  calls : list (T * T)
}.

Definition State (A : Type) : Type := run → A * run.

Definition ret {A : Type} (a : A) : State A := λ st, (a, st).

Definition bind {A B : Type} (m : State A) (k : A → State B) : State B :=
  λ st, let '(a, st') := m st in k a st'.

Notation "'let*' x := m 'in' k" := (bind m (λ x, k))
  (at level 10, x name, m at level 200, k at level 200, only parsing).

Fixpoint mapM {A B : Type} (f : A → State B) (l : list A) : State (list B) :=
  match l with
  | [] => ret []
  | x :: l' => let* y := f x in let* ys := mapM f l' in ret (y :: ys)
  end.

Definition random_resolution : N := 2 ^ 53.

(* the numerator of the next [Math.random()] *)
Definition Math_random : State N := λ st,
  match entropy st with
  | [] => (0%N, st)
  | r :: rs =>
      ((r mod random_resolution)%N,
       mkRun rs (distanceCache st) (calls st))
  end.

(* [Math.floor(Math.random() * n)], the product taken without rounding *)
Definition random_index (n : nat) : State nat :=
  let* r := Math_random in
  ret (N.to_nat (r * N.of_nat n / random_resolution)).

(** ** Arrays *)

(* [l.indexOf(x)] *)
Definition indexOf (l : list T) (x : T) : Z :=
  match list_find (λ y, y = x) l with
  | Some (i, _) => Z.of_nat i
  | None => -1
  end.

(* [l.splice(start, 1)], for the array left afterwards *)
Definition splice1 (l : list T) (start : Z) : list T :=
  let len := Z.of_nat (length l) in
  let from := if bool_decide (start < 0) then Z.max (len + start) 0
              else Z.min start len in
  delete (Z.to_nat from) l.

(* [l.slice(0, e)] *)
Definition slice0 (l : list T) (e : Z) : list T :=
  let len := Z.of_nat (length l) in
  let to := if bool_decide (e < 0) then Z.max (len + e) 0 else Z.min e len in
  take (Z.to_nat to) l.

(** [l.sort(compareFn)], as the stable insertion sort; [after a b] tells
    whether [compareFn(a, b) > 0].  Every engine agrees with it when the
    comparator is a consistent order; for the others the language leaves
    the resulting order to the engine. *)
Fixpoint sort_insert (after : T → T → State bool) (x : T) (l : list T)
  : State (list T) :=
  match l with
  | [] => ret [x]
  | y :: l' =>
      let* gt := after x y in
      if gt : bool then
        let* r := sort_insert after x l' in ret (y :: r)
      else ret (x :: y :: l')
  end.

Fixpoint Array_sort (after : T → T → State bool) (l : list T)
  : State (list T) :=
  match l with
  | [] => ret []
  | x :: l' =>
      let* sorted := Array_sort after l' in sort_insert after x sorted
  end.

(** ** Samplers *)

(* the loop of [reservoirSample], [i] being the index of the head of [rest] *)
Fixpoint reservoir_loop (sampleSize : Z) (rest : list T) (i : nat)
    (reservoir : list T) : State (list T) :=
  match rest with
  | [] => ret reservoir
  | x :: rest' =>
      let* j := random_index (S i) in
      reservoir_loop sampleSize rest' (S i)
        (if bool_decide (Z.of_nat j < sampleSize)
         then <[j := x]> reservoir else reservoir)
  end.

Definition reservoirSample (items : list T) (sampleSize : Z)
  : State (list T) :=
  let reservoir := slice0 items sampleSize in
  reservoir_loop sampleSize (drop (Z.to_nat sampleSize) items)
    (Z.to_nat sampleSize) reservoir.

(* [() => 0.5 - Math.random()] is positive when the draw is below one half *)
Definition random_compare (_ _ : T) : State bool :=
  let* r := Math_random in ret (bool_decide (r < random_resolution / 2)%N).

Definition getRandomSample (items : list T) (sampleSize : Z)
  : State (list T) :=
  let* shuffled := Array_sort random_compare items in
  ret (slice0 shuffled sampleSize).

Definition getEfficientSample (items : list T) (sampleSize : Z)
  : State (list T) :=
  if bool_decide (10000 < Z.of_nat (length items))
  then reservoirSample items sampleSize
  else getRandomSample items sampleSize.

(** ** Greedy selector *)

Section Run.

Variable items : list T.
Variable options : SelectorOptions.

Definition the_distanceFunction : T → T → num :=
  default (λ a b, defaultDistance (view a) (view b))
    (distanceFunction options).

Definition the_prioritizeComplete : bool :=
  default false (prioritizeComplete options).

Definition the_completenessWeight : num :=
  default (ndiv (of_Z 3) (of_Z 10)) (completenessWeight options).

Definition the_sampleSize : Z :=
  default (Z.min 1000 (Z.of_nat (length items))) (sampleSize options).

Definition cache_key (a b : T) : string :=
  pretty (indexOf items a) +:+ "-" +:+ pretty (indexOf items b).

Definition getCachedDistance (a b : T) : State num := λ st,
  let key := cache_key a b in
  match distanceCache st !! key with
  | Some d => (d, st)
  | None =>
      let d := the_distanceFunction a b in
      (d, mkRun (entropy st) (<[key := d]> (distanceCache st))
            (calls st ++ [(a, b)]))
  end.

(* [Math.min(...l)] *)
Definition Math_min (l : list num) : num := fold_left nmin l infinity.

Definition score_of (item : T) (minDistance : num) : num :=
  if the_prioritizeComplete then
    let completeness := calculateCompleteness (view item) in
    nadd (nmul (nsub (of_Z 1) the_completenessWeight) minDistance)
         (nmul the_completenessWeight completeness)
  else minDistance.

(* [maxScore], [bestItem] and [bestIndex] *)
Definition best : Type := num * option (T * nat).

(* the [for] loop over [remainingItems], from index [i] on *)
Fixpoint scan (selected : list T) (rest : list T) (i : nat) (b : best)
  : State best :=
  match rest with
  | [] => ret b
  | item :: rest' =>
      let* ds := mapM (getCachedDistance item) selected in
      let score := score_of item (Math_min ds) in
      scan selected rest' (S i)
        (if ngtb score b.1 then (score, Some (item, i)) else b)
  end.

(* the [while] loop; [fuel] bounds the iterations left, and an
   iteration removes one element of [remainingItems] *)
Fixpoint select_loop (fuel : nat) (selected remainingItems : list T)
  : State (list T) :=
  match fuel with
  | O => ret selected
  | S fuel' =>
      if bool_decide (Z.of_nat (length selected) < numExamples options)
         && bool_decide (0 < length remainingItems)%nat
      then
        let* b := scan selected remainingItems 0 (of_Z (-1), None) in
        match b.2 with
        | None => ret selected
        | Some (bestItem, bestIndex) =>
            select_loop fuel' (selected ++ [bestItem])
              (splice1 remainingItems (Z.of_nat bestIndex))
        end
      else ret selected
  end.

(* [(a, b) => calculateCompleteness(b) - calculateCompleteness(a)] *)
Definition by_completeness (a b : T) : State bool :=
  ret (ngtb (nsub (calculateCompleteness (view b))
                  (calculateCompleteness (view a))) (of_Z 0)).

(* the first pick: the chosen item and [remainingItems] without it.
   [remainingItems] is not empty when this runs, so the item exists
   (lemma [hoare_first_pick]). *)
Definition first_pick (remainingItems : list T)
  : State (option T * list T) :=
  if the_prioritizeComplete then
    let* sorted := Array_sort by_completeness remainingItems in
    match sorted !! 0%nat with
    | Some mostComplete =>
        ret (Some mostComplete,
             splice1 sorted (indexOf sorted mostComplete))
    | None => ret (None, sorted)
    end
  else
    let* i := random_index (length remainingItems) in
    match remainingItems !! i with
    | Some randomFirst =>
        ret (Some randomFirst,
             splice1 remainingItems (indexOf remainingItems randomFirst))
    | None => ret (None, remainingItems)
    end.

Definition selectDiverseExamples_body : State (completion (list T)) :=
  match validateOptions options with
  | Throw e => ret (Throw e)
  | Return _ =>
      if bool_decide (length items = 0%nat)
         || bool_decide (numExamples options = 0)
      then ret (Return [])
      else if bool_decide (Z.of_nat (length items) < numExamples options)
      then ret (Throw (mkPickassoError
             "Cannot select more examples than available items"))
      else
        let* sampledItems :=
          if bool_decide (the_sampleSize < Z.of_nat (length items))
          then getEfficientSample items the_sampleSize
          else ret items in
        let* picked := first_pick sampledItems in
        let selected := option_list picked.1 in
        let remainingItems := picked.2 in
        let* selected :=
          select_loop (length remainingItems) selected remainingItems in
        ret (Return selected)
  end.

End Run.

(** A run starts with an empty [distanceCache] and no call made. *)
Definition selectDiverseExamples (items : list T) (options : SelectorOptions)
    (rng : list N) : completion (list T) * run :=
  selectDiverseExamples_body items options (mkRun rng ∅ []).

End Selector.

Arguments SelectorOptions num T : clear implicits.
Arguments run num T : clear implicits.
Arguments State num T A : clear implicits.

(** ** Kinds of error

    Both kinds are a [PickassoError]; the message tells them apart. *)


Definition InsufficientItemsError (e : PickassoError) : Prop :=
  e = mkPickassoError "Cannot select more examples than available items".

(** ** Vocabulary of the properties *)

Section Vocabulary.

Context {num : Type} `{!Number num}.

(** What one path adds to the running sum of [defaultDistance], and whether
    it counts as a valid comparison. *)
Definition penalty (flat1 flat2 : flat num) (key : string) : num :=
  let val1 := obj_get flat1 key in
  let val2 := obj_get flat2 key in
  if is_undefined val1 || is_undefined val2 then of_Z 1
  else
    match val1, val2 with
    | VNum n1, VNum n2 =>
        let maxVal := nmax (nabs n1) (nabs n2) in
        if ngtb maxVal (of_Z 0) then ndiv (nabs (nsub n1 n2)) maxVal
        else of_Z 0
    | _, _ => if strict_eq val1 val2 then of_Z 0 else of_Z 1
    end.

Definition compared (flat1 flat2 : flat num) (key : string) : bool :=
  negb (is_undefined (obj_get flat1 key) || is_undefined (obj_get flat2 key)).

Definition is_scalar (v : value num) : Prop := is_object v = false.

(** A leaf that is defined and is not an infinite number. *)
Definition finite_leaf (v : value num) : Prop :=
  match v with
  | VUndefined => False
  | VNum n => nabs n ≠ infinity
  | _ => True
  end.

Context {T : Type} `{!EqDecision T}.

(** [hoare J m Q]: the step [m] keeps the invariant [J] of the state and
    returns a value satisfying [Q]. *)
Definition hoare {A : Type} (J : run num T → Prop) (m : State num T A)
    (Q : A → Prop) : Prop :=
  ∀ st, J st → J (m st).2 ∧ Q (m st).1.

(** An invariant that does not look at the entropy left. *)
Definition entropy_free (J : run num T → Prop) : Prop :=
  ∀ e e' c l, J (mkRun e c l) → J (mkRun e' c l).

(** The positions (of first occurrence) of a pair of records, and the cache
    key of the pair. *)
Definition position_pair (items : list T) (p : T * T) : Z * Z :=
  (indexOf items p.1, indexOf items p.2).

Definition key_of_pair (items : list T) (p : T * T) : string :=
  cache_key items p.1 p.2.

(** The cache holds exactly the keys of the calls made, each made once. *)
Definition cache_matches_calls (items : list T) (st : run num T) : Prop :=
  NoDup (key_of_pair items <$> calls st)
  ∧ ∀ k, k ∈ key_of_pair items <$> calls st ↔ is_Some (distanceCache st !! k).

(** The positions of a pair of records, smaller first. *)
Definition unordered_pair (items : list T) (p : T * T) : Z * Z :=
  (Z.min (indexOf items p.1) (indexOf items p.2),
   Z.max (indexOf items p.1) (indexOf items p.2)).

(** Every call made so far measured a record of the collection against a
    different record, selected before it. *)
Definition calls_follow (items selected : list T) (st : run num T) : Prop :=
  ∀ x y, (x, y) ∈ calls st →
    x ∈ items ∧ y ∈ items ∧ y ∈ selected ∧ x ≠ y
    ∧ ∀ i j, selected !! i = Some x → selected !! j = Some y → (j < i)%nat.

(** Every score computed from a distance satisfying [D] beats the initial
    [maxScore]; [Math.min] of distances satisfying [D] satisfies [D]. *)
Definition scores_above_start (view : T → value num) (items : list T)
    (options : SelectorOptions num T) (D : num → Prop) : Prop :=
  ∀ d c, D d → c ∈ items →
    nltb (of_Z (-1)) (score_of view options c d) = true.

Definition min_keeps (D : num → Prop) : Prop :=
  ∀ ds, ds ≠ [] → Forall D ds → D (Math_min ds).

End Vocabulary.

(** No character of the string is a dash. *)
Fixpoint dash_free (s : string) : Prop :=
  match s with
  | EmptyString => True
  | String c s' => c ≠ "-"%char ∧ dash_free s'
  end.

(** A decimal digit, and a name made of decimal digits only; the names an
    engine lists first, as indices, are among these. *)
Definition is_digit (c : ascii) : bool :=
  let n := N_of_ascii c in (48 <=? n)%N && (n <=? 57)%N.

Fixpoint all_digits (s : string) : bool :=
  match s with
  | EmptyString => true
  | String c s' => is_digit c && all_digits s'
  end.

Definition numeral (key : string) : bool :=
  match key with
  | EmptyString => false
  | _ => all_digits key
  end.

(** A name that an assignment [acc[key] = v] adds as the last own property
    of [acc], in every engine: neither a numeral nor [__proto__]. *)
Definition ordinary_key (key : string) : Prop :=
  key ≠ "__proto__" ∧ numeral key = false.

(** ** Laws of the carriers

    What the properties below need to know about the arithmetic; both
    carriers satisfy them (instances [float_MinLaws], [exact_MinLaws] and so
    on). *)

(** [Math.min] returns one of its arguments, and [Infinity] is neutral. *)
Class MinLaws (num : Type) `{!Number num} : Prop := {
  nmin_sel : ∀ a b : num, nmin a b = a ∨ nmin a b = b;
  nmin_infinity : ∀ a : num, nmin infinity a = a
}.

(** A number that is not infinite has penalty [0] against itself; [0 + 0] is
    [0]; [0] divided by a positive count is [0]. *)
Class ZeroLaws (num : Type) `{!Number num} : Prop := {
  number_penalty_self : ∀ n : num,
    nabs n ≠ infinity →
    (if ngtb (nmax (nabs n) (nabs n)) (of_Z 0)
     then ndiv (nabs (nsub n n)) (nmax (nabs n) (nabs n))
     else of_Z 0) = of_Z 0;
  add_zero : nadd (of_Z 0 : num) (of_Z 0) = of_Z 0;
  zero_div_count : ∀ k : nat,
    (0 < k)%nat → Z.of_nat k < 2 ^ 53 →
    ndiv (of_Z 0 : num) (of_nat k) = of_Z 0
}.

(** [|a - b|] and [max(|a|, |b|)] do not depend on the order of [a] and
    [b]. *)
Class SymmetryLaws (num : Type) `{!Number num} : Prop := {
  abs_sub_sym : ∀ a b : num, nabs (nsub a b) = nabs (nsub b a);
  max_abs_comm : ∀ a b : num,
    nmax (nabs a) (nabs b) = nmax (nabs b) (nabs a)
}.

(** ** Concrete records and collections *)

Module Sample.

(* [{}] *)
Definition empty_record {num : Type} `{!Number num} : value num := VObj [].

(* [{a: n}] *)
Definition just_a {num : Type} `{!Number num} (n : Z) : value num :=
  VObj [("a", VNum (of_Z n))].

(* [{x: 10, y: 10, z: 10}] and [{y: 8, z: 7, x: 9}] *)
Definition tens : value float :=
  VObj [("x", VNum (of_Z 10)); ("y", VNum (of_Z 10)); ("z", VNum (of_Z 10))].
Definition nines : value float :=
  VObj [("y", VNum (of_Z 8)); ("z", VNum (of_Z 7)); ("x", VNum (of_Z 9))].

(* [{x: 9, y: 8, z: 7}] *)
Definition sevens : value float :=
  VObj [("x", VNum (of_Z 9)); ("y", VNum (of_Z 8)); ("z", VNum (of_Z 7))].

(* the data set of the package's tests, followed by two empty records *)
Definition person (id : Z) (name : string) (age : Z) (city : string)
  : value float :=
  VObj [("id", VNum (of_Z id)); ("name", VStr name);
        ("age", VNum (of_Z age)); ("city", VStr city)].

Definition testData : list (value float) :=
  [person 1 "John" 25 "NY"; person 2 "Jane" 30 "LA";
   person 3 "Bob" 25 "NY"; person 4 "Alice" 35 "SF";
   empty_record; empty_record].

(* a reference is a position in [testData] *)
Definition view (r : nat) : value float := nth r testData (VObj []).

(* the four records of the tests *)
Definition four : list nat := [0; 1; 2; 3]%nat.

(* a collection that holds the same object at positions 0 and 2 *)
Definition repeated : list nat := [0; 1; 0]%nat.

(* John and the two empty records *)
Definition sparse : list nat := [0; 4; 5]%nat.

Definition options (n : Z) (size : option Z) (weight : option float)
  : SelectorOptions float nat :=
  {| numExamples := n; sampleSize := size; prioritizeComplete := None;
     completenessWeight := weight; distanceFunction := None |}.

Definition prioritizing (n : Z) : SelectorOptions float nat :=
  {| numExamples := n; sampleSize := None; prioritizeComplete := Some true;
     completenessWeight := None; distanceFunction := None |}.


(* a draw below one half, and one that is not *)
Definition low : N := 0.
Definition high : N := 2 ^ 52.

End Sample.

(** ** Key paths

    [getNestedValue] of [src/run.ts], which the command line uses to reach
    the array inside the parsed input.  Property access is modelled on own
    properties; for an array these are the element indices and [length]. *)

(** [run.ts] raises plain [Error]s. *)
Inductive Error : Type :=
| mkError (message : string).

Inductive outcome (A : Type) : Type :=
| Value (a : A)
| Raise (e : Error).

Arguments Value {A} a.
Arguments Raise {A} e.

(* [s.split(".")] *)
Fixpoint split_dots (s : string) : list string :=
  match s with
  | EmptyString => [""]
  | String c s' =>
      if decide (c = "."%char) then "" :: split_dots s'
      else
        match split_dots s' with
        | [] => [String c ""]
        | part :: parts => String c part :: parts
        end
  end.

Section KeyPaths.

Context {num : Type} `{!Number num}.

(* the element index a property name stands for, in an array of [n]
   elements *)
Definition array_index (part : string) (n : nat) : option nat :=
  fst <$> list_find (λ i : nat, pretty i = part) (seq 0 n).

(* [current[part]] on an object or an array *)
Definition property (current : value num) (part : string) : value num :=
  match current with
  | VObj props => obj_get props part
  | VArr elems =>
      match array_index part (length elems) with
      | Some i => default VUndefined (elems !! i)
      | None =>
          if decide (part = "length") then VNum (of_nat (length elems))
          else VUndefined
      end
  | _ => VUndefined
  end.

(* the [for] loop over [parts] *)
Fixpoint walk (path : string) (current : value num) (parts : list string)
  : outcome (value num) :=
  match parts with
  | [] => Value current
  | part :: parts' =>
      if negb (is_object current) then
        Raise (mkError ("Invalid path: " +:+ path +:+ " (" +:+ part
                        +:+ " is not an object)"))
      else
        let next := property current part in
        if is_undefined next then
          Raise (mkError ("Invalid path: " +:+ path +:+ " (" +:+ part
                          +:+ " not found)"))
        else walk path next parts'
  end.

(* [path] is [None] for [undefined]; [!path] also holds of the empty
   string *)
Definition getNestedValue (obj : value num) (path : option string)
  : outcome (value num) :=
  match path with
  | None | Some EmptyString => Value obj
  | Some p => walk p obj (split_dots p)
  end.

End KeyPaths.

(** ** Vocabulary of the further properties *)

(** No character of the string is a dot. *)
Fixpoint dot_free (s : string) : Prop :=
  match s with
  | EmptyString => True
  | String c s' => c ≠ "."%char ∧ dot_free s'
  end.

(** A property name that is a path component of its own. *)
Definition plain_key (key : string) : Prop := key ≠ "" ∧ dot_free key.

Section Paths.

Context {num : Type} `{!Number num}.

(** At every level the property names are pairwise different, not empty and
    without dot. *)
Fixpoint plain_keys (v : value num) : Prop :=
  match v with
  | VObj props =>
      NoDup props.*1
      ∧ (fix all (ps : list (string * value num)) : Prop :=
           match ps with
           | [] => True
           | (key, w) :: ps' => plain_key key ∧ plain_keys w ∧ all ps'
           end) props
  | VArr elems =>
      (fix all (es : list (value num)) : Prop :=
         match es with
         | [] => True
         | w :: es' => plain_keys w ∧ all es'
         end) elems
  | _ => True
  end.

(** The key of the path [parts] under the prefix [pre]. *)
Fixpoint join_path (pre : string) (parts : list string) : string :=
  match parts with
  | [] => pre
  | part :: parts' => join_path (fullKey pre part) parts'
  end.

End Paths.

Section RunVocabulary.

Context {num : Type} `{!Number num}.
Context {T : Type} `{!EqDecision T}.
Variable view : T → value num.
Variable items : list T.
Variable options : SelectorOptions num T.

(** The cache and the calls of [st'] are those of [st]. *)
Definition same_memory (st st' : run num T) : Prop :=
  distanceCache st' = distanceCache st ∧ calls st' = calls st.

(** [sampledItems]: the collection, or a sample of it. *)
Definition working_set : State num T (list T) :=
  if bool_decide (the_sampleSize items options < Z.of_nat (length items))
  then getEfficientSample items (the_sampleSize items options)
  else ret items.

(** Every cached distance is the value of the distance function on the pair
    of records the key stands for. *)
Definition cache_sound (st : run num T) : Prop :=
  ∀ a b d, a ∈ items → b ∈ items →
    distanceCache st !! cache_key items a b = Some d →
    d = the_distanceFunction view options a b.

(** Every call made so far measured a record of the collection against a
    record of [selected]. *)
Definition calls_within (selected : list T) (st : run num T) : Prop :=
  ∀ x y, (x, y) ∈ calls st → x ∈ items ∧ y ∈ selected.

(** [st] with its entropy replaced. *)
Definition with_entropy (e : list N) (st : run num T) : run num T :=
  mkRun e (distanceCache st) (calls st).

(** A step that neither reads nor consumes the entropy. *)
Definition entropy_blind {A : Type} (m : State num T A) : Prop :=
  ∀ st e, m (with_entropy e st) = ((m st).1, with_entropy e (m st).2).

(** The score of a candidate against the records selected so far. *)
Definition candidate_score (selected : list T) (item : T) : num :=
  score_of view options item
    (Math_min (the_distanceFunction view options item <$> selected)).

(** [x] is a candidate that beats the initial [maxScore], and no candidate
    beats it. *)
Definition greedy_choice (selected : list T) (x : T) (candidates : list T)
  : Prop :=
  x ∈ candidates
  ∧ ngtb (candidate_score selected x) (of_Z (-1)) = true
  ∧ ∀ y, y ∈ candidates →
      ngtb (candidate_score selected y) (candidate_score selected x) = false.


(** [gt] is a consistent comparison on [l]: a strict weak order. *)
Definition consistent_on (gt : T → T → bool) (l : list T) : Prop :=
  (∀ a, a ∈ l → gt a a = false)
  ∧ (∀ a b, a ∈ l → b ∈ l → gt a b = true → gt b a = false)
  ∧ (∀ a b c, a ∈ l → b ∈ l → c ∈ l →
       gt a b = false → gt b c = false → gt a c = false).

End RunVocabulary.

(** [<] is a strict order: never [a < a], and [a < b < c] gives [a < c]. *)
Class OrderLaws (num : Type) `{!Number num} : Prop := {
  nltb_irrefl : ∀ a : num, nltb a a = false;
  nltb_trans : ∀ a b c : num,
    nltb a b = true → nltb b c = true → nltb a c = true
}.

(** ** More concrete records *)

Module Nested.

(* [{data: {items: [1, 2]}, name: "x"}] *)
Definition response {num : Type} `{!Number num} : value num :=
  VObj [("data", VObj [("items", VArr [VNum (of_Z 1); VNum (of_Z 2)])]);
        ("name", VStr "x")].

(* [{a: 1, b: null}] *)
Definition half {num : Type} `{!Number num} : value num :=
  VObj [("a", VNum (of_Z 1)); ("b", VNull)].

(* references into [{a: 7}], [{a: 1, b: null}], [{a: 3}] *)
Definition records {num : Type} `{!Number num} : list (value num) :=
  [Sample.just_a 7; half; Sample.just_a 3].

Definition view {num : Type} `{!Number num} (r : nat) : value num :=
  nth r records (Sample.just_a 0).

Definition all : list nat := [1; 0; 2]%nat.

End Nested.

(** * Properties *)

(** ** The two carriers *)

Lemma float_min_sel (a b : float) : Float64.min a b = a ∨ Float64.min a b = b.
Proof. unfold Float64.min. repeat case_match; auto. Qed.

Lemma float_min_infinity (a : float) : Float64.min PrimFloat.infinity a = a.
Proof.
  unfold Float64.min.
  change (PrimFloat.is_nan PrimFloat.infinity) with false. cbv iota.
  destruct (PrimFloat.is_nan a) eqn:Hn; [done|].
  destruct (PrimFloat.ltb a PrimFloat.infinity) eqn:Hlt; [done|].
  apply Prim2SF_inj.
  unfold PrimFloat.is_nan in Hn.
  rewrite FloatAxioms.eqb_spec in Hn. rewrite ltb_spec in Hlt.
  change (Prim2SF PrimFloat.infinity) with (S754_infinity false) in *.
  destruct (Prim2SF a) as [s|s| |s m e]; try destruct s; try done.
Qed.

#[global] Instance float_MinLaws : MinLaws float.
Proof. split; [apply float_min_sel | apply float_min_infinity]. Qed.

Lemma exact_min_sel (a b : exact) : Exact.min a b = a ∨ Exact.min a b = b.
Proof. destruct a, b; simpl; repeat case_match; auto. Qed.

Lemma exact_min_infinity (a : exact) : Exact.min PosInf a = a.
Proof. destruct a; simpl; try done. Qed.

#[global] Instance exact_MinLaws : MinLaws exact.
Proof. split; [apply exact_min_sel | apply exact_min_infinity]. Qed.

(** ** Validation and the edge cases *)

Section Entry.

Context {num : Type} `{!Number num}.
Context {T : Type} `{!EqDecision T}.
Variable view : T → value num.

Implicit Types (items : list T) (options : SelectorOptions num T).
Implicit Types (rng : list N) (e : PickassoError).


Lemma the_sampleSize_pos items options :
  validateOptions options = Return () → items ≠ [] →
  0 < the_sampleSize items options.
Proof.
  unfold the_sampleSize, validateOptions. intros Hv Hne.
  destruct (sampleSize options) as [s|]; simpl.
  - repeat case_match; try done; case_bool_decide; try done; lia.
  - destruct items; [done|]. simpl. lia.
Qed.


Lemma select_trivial items options rng :
  validateOptions options = Return () →
  items = [] ∨ numExamples options = 0 →
  selectDiverseExamples view items options rng = (Return [], mkRun rng ∅ []).
Proof.
  intros Hv Hz. unfold selectDiverseExamples, selectDiverseExamples_body.
  rewrite Hv.
  destruct Hz as [-> | ->]; simpl; [done|].
  by rewrite orb_true_r.
Qed.

Lemma select_insufficient items options rng :
  validateOptions options = Return () →
  items ≠ [] → numExamples options ≠ 0 →
  Z.of_nat (length items) < numExamples options →
  selectDiverseExamples view items options rng
  = (Throw (mkPickassoError "Cannot select more examples than available items"),
     mkRun rng ∅ []).
Proof.
  intros Hv Hi Hn Hlt. unfold selectDiverseExamples, selectDiverseExamples_body.
  rewrite Hv.
  rewrite (bool_decide_eq_false_2 (length items = 0%nat))
    by (by destruct items).
  rewrite (bool_decide_eq_false_2 _ Hn). simpl.
  by rewrite (bool_decide_eq_true_2 _ Hlt).
Qed.

Lemma select_returns items options rng :
  validateOptions options = Return () →
  items ≠ [] → numExamples options ≠ 0 →
  numExamples options ≤ Z.of_nat (length items) →
  ∃ selected, (selectDiverseExamples view items options rng).1 = Return selected.
Proof.
  intros Hv Hi Hn Hle. unfold selectDiverseExamples, selectDiverseExamples_body.
  rewrite Hv.
  rewrite (bool_decide_eq_false_2 (length items = 0%nat))
    by (by destruct items).
  rewrite (bool_decide_eq_false_2 _ Hn). simpl.
  rewrite (bool_decide_eq_false_2 (Z.of_nat (length items) < _)) by lia.
  unfold bind, ret.
  repeat match goal with
         | |- context [let '(_, _) := ?m in _] => destruct m
         end.
  eauto.
Qed.


(** C7.  Once the options pass validation,
    [selectDiverseExamples] raises exactly when the collection is not empty,
    [numExamples] is positive and exceeds the size of the collection, and
    the error is then the one about insufficient items; an empty collection
    or [numExamples = 0] gives the empty sequence, with no draw and no
    distance evaluated. *)
Theorem C7_insufficient_items_iff items options rng :
  validateOptions options = Return () →
  (∀ e, (selectDiverseExamples view items options rng).1 = Throw e
        ↔ InsufficientItemsError e ∧ items ≠ [] ∧ 0 < numExamples options
          ∧ Z.of_nat (length items) < numExamples options)
  ∧ (items = [] ∨ numExamples options = 0 →
     selectDiverseExamples view items options rng
     = (Return [], mkRun rng ∅ [])).
Proof.
  intros Hv. split; [|by apply select_trivial].
  intros e. split.
  - intros Ht.
    destruct (decide (items = [])) as [->|Hi].
    { by rewrite select_trivial in Ht by auto. }
    destruct (decide (numExamples options = 0)) as [Hz|Hn].
    { by rewrite select_trivial in Ht by auto. }
    destruct (decide (Z.of_nat (length items) < numExamples options)) as [Hlt|Hge].
    + rewrite select_insufficient in Ht by done. simpl in Ht.
      injection Ht as <-. repeat split; [done | lia | done].
    + destruct (select_returns items options rng) as [sel Hs]; try done; [lia|].
      congruence.
  - intros (-> & Hi & Hpos & Hlt).
    by rewrite select_insufficient by (done || lia).
Qed.

End Entry.

(** The options of the witness: two examples wanted, nothing else set. *)
Lemma C7_insufficient_items_iff_witness :
  validateOptions (Sample.options 2 None None) = Return ()
  ∧ (selectDiverseExamples Sample.view [0%nat]
       (Sample.options 2 None None) []).1
    = Throw (mkPickassoError
               "Cannot select more examples than available items").
Proof.
  split; [reflexivity|].
  destruct (C7_insufficient_items_iff Sample.view [0%nat]
              (Sample.options 2 None None) []) as [Hiff _]; [reflexivity|].
  apply Hiff.
  split; [reflexivity|]. split; [discriminate|]. split; [simpl; lia | simpl; lia].
Defined.

(** An empty collection and [numExamples = 0], with a [completenessWeight]
    of 2: the call raises instead of returning the empty sequence.  And one
    item with two examples wanted and the same weight: the error raised is
    the one about the weight, not the one about insufficient items. *)
Lemma C7_counterexample :
  selectDiverseExamples Sample.view []
    (Sample.options 0 None (Some (of_Z 2))) []
  = (Throw (mkPickassoError "completenessWeight must be between 0 and 1"),
     mkRun [] ∅ [])
  ∧ (selectDiverseExamples Sample.view [0%nat]
       (Sample.options 2 None (Some (of_Z 2))) []).1
    = Throw (mkPickassoError "completenessWeight must be between 0 and 1").
Proof. split; reflexivity. Qed.



(** ** Arrays *)

Section Arrays.

Context {T : Type} `{!EqDecision T}.

Implicit Types (l : list T) (x : T).

Lemma indexOf_lookup l x :
  x ∈ l → ∃ i, indexOf l x = Z.of_nat i ∧ l !! i = Some x.
Proof.
  intros Hx. unfold indexOf.
  destruct (list_find (λ y, y = x) l) as [[i y]|] eqn:Hf.
  - apply list_find_Some in Hf as (Hi & -> & _). eauto.
  - apply list_find_None in Hf. rewrite Forall_forall in Hf.
    by destruct (Hf x Hx).
Qed.

Lemma splice1_delete l (i : nat) : splice1 l (Z.of_nat i) = delete i l.
Proof.
  unfold splice1. rewrite bool_decide_eq_false_2 by lia.
  destruct (decide (i < length l)%nat).
  - by rewrite Z.min_l, Nat2Z.id by lia.
  - rewrite Z.min_r, Nat2Z.id by lia.
    rewrite !delete_take_drop, !take_ge, !drop_ge by lia. done.
Qed.

Lemma splice1_indexOf l x : x ∈ l → x :: splice1 l (indexOf l x) ≡ₚ l.
Proof.
  intros (i & -> & Hi)%indexOf_lookup.
  rewrite splice1_delete. symmetry. by apply delete_Permutation.
Qed.

Lemma slice0_take l (e : Z) : 0 ≤ e → slice0 l e = take (Z.to_nat e) l.
Proof.
  intros He. unfold slice0. rewrite bool_decide_eq_false_2 by lia.
  destruct (decide (e ≤ Z.of_nat (length l))).
  - by rewrite Z.min_l by lia.
  - rewrite Z.min_r, Nat2Z.id by lia.
    rewrite !take_ge by lia. done.
Qed.

Lemma insert_submseteq l (j : nat) x : <[j := x]> l ⊆+ x :: l.
Proof.
  revert j. induction l as [|y l IH]; intros [|j]; simpl.
  - by apply submseteq_nil_l.
  - by apply submseteq_nil_l.
  - by apply submseteq_skip, submseteq_cons.
  - trans (y :: x :: l); [apply submseteq_skip, IH|].
    by rewrite Permutation_swap.
Qed.

End Arrays.

(** ** Cache keys *)

Section Keys.

Lemma pretty_N_go_dash_free (x : N) (s : string) :
  dash_free s → dash_free (pretty_N_go x s).
Proof.
  revert s. induction (N.lt_wf_0 x) as [x _ IH]; intros s Hs.
  assert (x = 0 ∨ 0 < x)%N as [->|Hx] by lia.
  - by rewrite pretty_N_go_0.
  - rewrite pretty_N_go_step by done. apply IH.
    { by apply N.div_lt. }
    split; [|done]. unfold pretty_N_char. by repeat case_match.
Qed.

Lemma pretty_index_dash_free (i : nat) : dash_free (pretty (Z.of_nat i)).
Proof.
  destruct (Z.of_nat i) as [|p|p] eqn:Hi; [done| |lia].
  unfold pretty, pretty_Z, pretty, pretty_positive, pretty, pretty_N.
  case_decide; [done|]. by apply pretty_N_go_dash_free.
Qed.

Lemma dash_splits (s1 s2 t1 t2 : string) :
  dash_free s1 → dash_free s2 →
  s1 +:+ "-" +:+ t1 = s2 +:+ "-" +:+ t2 → s1 = s2 ∧ t1 = t2.
Proof.
  revert s2. induction s1 as [|c s1 IH]; intros [|c' s2] H1 H2 Heq;
    simpl in *; simplify_eq.
  - done.
  - by destruct H2.
  - by destruct H1.
  - destruct H1 as [_ H1], H2 as [_ H2].
    by destruct (IH s2 H1 H2) as [-> ->].
Qed.

Context {T : Type} `{!EqDecision T}.

(** The key tells the ordered pair: two pairs of records of the collection
    have the same key only if they are the same pair. *)
Lemma cache_key_inj (items : list T) (a b a' b' : T) :
  a ∈ items → b ∈ items → a' ∈ items → b' ∈ items →
  cache_key items a b = cache_key items a' b' → a = a' ∧ b = b'.
Proof.
  intros (i & Hi & Ha)%indexOf_lookup (j & Hj & Hb)%indexOf_lookup
         (i' & Hi' & Ha')%indexOf_lookup (j' & Hj' & Hb')%indexOf_lookup.
  unfold cache_key. rewrite Hi, Hj, Hi', Hj'.
  intros [Hl Hr]%dash_splits; try apply pretty_index_dash_free.
  apply (inj pretty) in Hl. apply (inj pretty) in Hr.
  assert (i = i') as -> by lia. assert (j = j') as -> by lia.
  split; congruence.
Qed.

End Keys.

(** ** Reasoning about runs *)

Section Runs.

Context {num : Type} `{!Number num}.
Context {T : Type} `{!EqDecision T}.

Local Abbreviation State := (State num T).
Local Abbreviation run := (run num T).

Lemma hoare_ret {A : Type} (J : run → Prop) (a : A) (Q : A → Prop) :
  Q a → hoare J (ret a) Q.
Proof. intros Ha st Hst. by split. Qed.

Lemma hoare_bind {A B : Type} (J : run → Prop) (m : State A) (k : A → State B)
    (Q : A → Prop) (R : B → Prop) :
  hoare J m Q → (∀ a, Q a → hoare J (k a) R) → hoare J (bind m k) R.
Proof.
  intros Hm Hk st Hst. unfold bind.
  destruct (Hm st Hst) as [HJ HQ]. destruct (m st) as [a st']. simpl in *.
  by apply Hk.
Qed.

Lemma hoare_weaken {A : Type} (J : run → Prop) (m : State A)
    (Q Q' : A → Prop) :
  hoare J m Q → (∀ a, Q a → Q' a) → hoare J m Q'.
Proof. intros Hm HQ st Hst. destruct (Hm st Hst). auto. Qed.

Lemma hoare_mapM {A B : Type} (J : run → Prop) (f : A → State B)
    (l : list A) (Q : B → Prop) :
  (∀ x, x ∈ l → hoare J (f x) Q) →
  hoare J (mapM f l) (λ r, Forall Q r ∧ length r = length l).
Proof.
  induction l as [|x l IH]; intros Hf; simpl.
  - by apply hoare_ret.
  - eapply hoare_bind; [apply Hf; by left|]. intros y Hy.
    eapply hoare_bind; [apply IH; intros; apply Hf; by right|].
    intros ys [Hys Hlen]. apply hoare_ret. split; [by constructor|].
    simpl. by rewrite Hlen.
Qed.

Section Entropy.

Variable J : run → Prop.
Hypothesis J_free : entropy_free J.

Lemma hoare_Math_random :
  hoare J Math_random (λ r, (r < random_resolution)%N).
Proof.
  intros [e c l] Hst. unfold Math_random. simpl. destruct e as [|r rs]; simpl.
  - split; [done|]. by compute.
  - split; [by eapply J_free|]. by apply N.mod_lt.
Qed.

Lemma hoare_random_index (n : nat) :
  (0 < n)%nat → hoare J (random_index n) (λ i, (i < n)%nat).
Proof.
  intros Hn. unfold random_index.
  eapply hoare_bind; [apply hoare_Math_random|]. intros r Hr.
  apply hoare_ret.
  assert (r * N.of_nat n / random_resolution < N.of_nat n)%N; [|lia].
  apply N.Div0.div_lt_upper_bound. simpl in Hr. nia.
Qed.

Lemma hoare_random_compare (a b : T) :
  hoare J (random_compare a b) (λ _, True).
Proof.
  unfold random_compare.
  eapply hoare_bind; [apply hoare_Math_random|]. intros. by apply hoare_ret.
Qed.

End Entropy.

(** *** Sorting *)

Section Sorting.

Variable J : run → Prop.
Variable after : T → T → State bool.
Hypothesis after_keeps : ∀ a b, hoare J (after a b) (λ _, True).

Lemma hoare_sort_insert (x : T) (l : list T) :
  hoare J (sort_insert after x l) (λ r, r ≡ₚ x :: l).
Proof.
  induction l as [|y l IH]; simpl.
  - by apply hoare_ret.
  - eapply hoare_bind; [apply after_keeps|]. intros [|] _.
    + eapply hoare_bind; [apply IH|]. intros r Hr. apply hoare_ret.
      rewrite Hr. apply Permutation_swap.
    + by apply hoare_ret.
Qed.

Lemma hoare_Array_sort (l : list T) :
  hoare J (Array_sort after l) (λ r, r ≡ₚ l).
Proof.
  induction l as [|x l IH]; simpl.
  - by apply hoare_ret.
  - eapply hoare_bind; [apply IH|]. intros sorted Hs.
    eapply hoare_weaken; [apply hoare_sort_insert|].
    intros r Hr. simpl in Hr. by rewrite Hr, Hs.
Qed.

End Sorting.

(** *** Sampling *)

Section Sampling.

Variable J : run → Prop.
Hypothesis J_free : entropy_free J.

Lemma hoare_reservoir_loop (s : Z) (rest : list T) (i : nat)
    (reservoir : list T) :
  hoare J (reservoir_loop s rest i reservoir)
    (λ r, r ⊆+ reservoir ++ rest ∧ length r = length reservoir).
Proof.
  revert i reservoir. induction rest as [|x rest IH]; intros i reservoir; simpl.
  - apply hoare_ret. by rewrite app_nil_r.
  - eapply hoare_bind; [apply hoare_random_index; [done | lia]|].
    intros j _.
    eapply hoare_weaken; [apply IH|]. intros r [Hr Hlen]. simpl in *.
    case_bool_decide.
    + rewrite length_insert in Hlen. split; [|done].
      etrans; [exact Hr|].
      rewrite <-Permutation_middle.
      apply (submseteq_skips_r rest _ (x :: reservoir)), insert_submseteq.
    + split; [|done]. etrans; [exact Hr|].
      apply submseteq_skips_l. by apply submseteq_cons.
Qed.

Lemma hoare_reservoirSample (items : list T) (s : Z) :
  0 ≤ s →
  hoare J (reservoirSample items s)
    (λ r, r ⊆+ items ∧ length r = Z.to_nat (Z.min s (Z.of_nat (length items)))).
Proof.
  intros Hs. unfold reservoirSample. rewrite slice0_take by done.
  eapply hoare_weaken; [apply hoare_reservoir_loop|].
  intros r [Hr Hlen]. simpl in *. rewrite take_drop in Hr. split; [done|].
  rewrite Hlen, length_take. lia.
Qed.

Lemma hoare_getRandomSample (items : list T) (s : Z) :
  0 ≤ s →
  hoare J (getRandomSample items s)
    (λ r, r ⊆+ items ∧ length r = Z.to_nat (Z.min s (Z.of_nat (length items)))).
Proof.
  intros Hs. unfold getRandomSample.
  eapply hoare_bind.
  { apply hoare_Array_sort. intros a b. by apply hoare_random_compare. }
  intros shuffled Hp. simpl in Hp. apply hoare_ret.
  rewrite slice0_take by done. split.
  - rewrite <-Hp. apply submseteq_take.
  - rewrite length_take, Hp. lia.
Qed.

Lemma hoare_getEfficientSample (items : list T) (s : Z) :
  0 ≤ s →
  hoare J (getEfficientSample items s)
    (λ r, r ⊆+ items ∧ length r = Z.to_nat (Z.min s (Z.of_nat (length items)))).
Proof.
  intros Hs. unfold getEfficientSample. case_bool_decide.
  - by apply hoare_reservoirSample.
  - by apply hoare_getRandomSample.
Qed.

End Sampling.

End Runs.

(** ** The greedy selector *)

Section Selection.

Context {num : Type} `{!Number num}.
Context {T : Type} `{!EqDecision T}.
Variable view : T → value num.
Variable items : list T.
Variable options : SelectorOptions num T.

Local Abbreviation run := (run num T).

(** The invariant of the state, and what it says of a cached distance. *)
Variable J : run → Prop.
Variable D : num → Prop.
Hypothesis J_free : entropy_free J.
Hypothesis cached_D : ∀ a b,
  a ∈ items → b ∈ items → hoare J (getCachedDistance view items options a b) D.

Lemma hoare_first_pick (remainingItems : list T) :
  remainingItems ≠ [] →
  hoare J (first_pick view options remainingItems)
    (λ p, ∃ x, p.1 = Some x ∧ x :: p.2 ≡ₚ remainingItems).
Proof.
  intros Hne. unfold first_pick. destruct (the_prioritizeComplete options).
  - eapply hoare_bind.
    { apply hoare_Array_sort. intros a b. by apply hoare_ret. }
    intros sorted Hs. simpl in Hs.
    destruct sorted as [|x sorted].
    { apply Permutation_nil_l in Hs. by subst. }
    simpl. apply hoare_ret. exists x. split; [done|]. simpl.
    rewrite <-Hs. apply splice1_indexOf. by left.
  - eapply hoare_bind.
    { apply hoare_random_index; [done|]. destruct remainingItems; [done|simpl; lia]. }
    intros i Hi. simpl in Hi.
    destruct (lookup_lt_is_Some_2 remainingItems i Hi) as [x Hx].
    rewrite Hx. apply hoare_ret. exists x. split; [done|]. simpl.
    apply splice1_indexOf. by eapply list_elem_of_lookup_2.
Qed.

Lemma hoare_scan (selected rest : list T) (i : nat) (b : best) :
  (∀ x, x ∈ selected → x ∈ items) →
  (∀ x, x ∈ rest → x ∈ items) →
  hoare J (scan view items options selected rest i b)
    (λ b', (∀ x j, b'.2 = Some (x, j) →
              b.2 = Some (x, j) ∨ (i ≤ j)%nat ∧ rest !! (j - i)%nat = Some x)
           ∧ (min_keeps D → scores_above_start view items options D → selected ≠ [] →
              (b.2 = None → b.1 = of_Z (-1)) →
              is_Some b.2 ∨ rest ≠ [] → is_Some b'.2)).
Proof.
  intros Hsel. revert i b.
  induction rest as [|item rest IH]; intros i b Hrest; simpl.
  - apply hoare_ret. split; [auto|]. intros _ _ _ _ [?|?]; done.
  - eapply hoare_bind.
    { apply hoare_mapM. intros s Hs. apply cached_D; [apply Hrest; by left | by apply Hsel]. }
    intros ds [Hds Hlen]. simpl in Hds, Hlen.
    eapply hoare_weaken; [apply IH; intros; apply Hrest; by right|].
    intros b' [Hpos Hsome]. simpl in *. split.
    + intros x j Hb'. destruct (Hpos x j Hb') as [Hb|[Hle Hj]].
      * destruct (ngtb _ _); [|by left].
        simpl in Hb. injection Hb as <- <-. right. split; [lia|].
        by rewrite Nat.sub_diag.
      * right. split; [lia|].
        replace (j - i)%nat with (S (j - S i)) by lia. done.
    + intros Hmin Habove Hne Hstart _. apply Hsome; try done.
      * destruct (ngtb _ _); [done|]. done.
      * left.
        destruct (b.2) as [p|] eqn:Eb; [by destruct (ngtb _ _); rewrite ?Eb|].
        rewrite Hstart by done. unfold ngtb.
        rewrite Habove; [done| |apply Hrest; by left].
        apply Hmin; [|done]. intros ->. by destruct selected.
Qed.

Lemma hoare_select_loop (fuel : nat) (selected remainingItems : list T) :
  (∀ x, x ∈ selected ++ remainingItems → x ∈ items) →
  (length remainingItems ≤ fuel)%nat →
  hoare J (select_loop view items options fuel selected remainingItems)
    (λ res, (∃ rest, res ++ rest ≡ₚ selected ++ remainingItems)
            ∧ (numExamples options ≤ Z.of_nat (length selected) →
               res = selected)
            ∧ (min_keeps D → scores_above_start view items options D → selected ≠ [] →
               ∀ n : nat, numExamples options = Z.of_nat n →
                 (length selected ≤ n
                  ≤ length selected + length remainingItems)%nat →
                 length res = n)).
Proof.
  revert selected remainingItems.
  induction fuel as [|fuel IH]; intros selected remainingItems Hin Hfuel; simpl.
  { apply hoare_ret. destruct remainingItems; [|simpl in Hfuel; lia].
    split; [by exists []|]. split; [done|].
    intros _ _ _ n _. simpl. lia. }
  destruct (bool_decide (Z.of_nat (length selected) < numExamples options)
            && bool_decide (0 < length remainingItems)%nat) eqn:Hguard.
  2: { apply hoare_ret. split; [by exists remainingItems|]. split; [done|].
       intros _ _ _ n Hn Hlen.
       apply andb_false_iff in Hguard as [Hg|Hg];
         apply bool_decide_eq_false in Hg; lia. }
  apply andb_true_iff in Hguard as [Hlt%bool_decide_eq_true Hpos%bool_decide_eq_true].
  eapply hoare_bind.
  { apply hoare_scan; intros x Hx; apply Hin, elem_of_app; auto. }
  intros [maxScore [[bestItem bestIndex]|]] [Hwhere Hsome]; simpl in *.
  2: { apply hoare_ret. split; [by exists remainingItems|]. split; [done|].
       intros Hmin Habove Hne n Hn Hlen.
       destruct Hsome as [? [=]]; try done.
       right. by destruct remainingItems; [simpl in Hpos; lia|]. }
  destruct (Hwhere _ _ eq_refl) as [[=]|[_ Hbest]].
  rewrite Nat.sub_0_r in Hbest.
  rewrite splice1_delete.
  apply delete_Permutation in Hbest as Hperm.
  set (remaining' := delete bestIndex remainingItems) in *.
  assert (length remainingItems = S (length remaining')) as Hlen'
    by by rewrite Hperm.
  eapply hoare_weaken.
  { apply IH; [|lia]. intros x Hx. apply Hin.
    rewrite Hperm. revert Hx. set_unfold. tauto. }
  intros res ((rest & Hrest) & _ & Hcount). simpl in *. split; [|split].
  - exists rest. rewrite Hrest, Hperm, <-app_assoc. simpl.
    by rewrite <-Permutation_middle.
  - lia.
  - intros Hmin Habove Hne n Hn Hlen. apply Hcount; try done.
    + by destruct selected.
    + rewrite length_app. simpl. lia.
Qed.

(** The run past validation and the two guards on the count. *)
Lemma hoare_select_main :
  validateOptions options = Return () →
  items ≠ [] → numExamples options ≠ 0 →
  numExamples options ≤ Z.of_nat (length items) →
  hoare J (selectDiverseExamples_body view items options)
    (λ c, ∃ first res,
        c = Return res ∧ first ∈ items ∧ res ⊆+ items
        ∧ (numExamples options ≤ 1 → res = [first])
        ∧ (min_keeps D → scores_above_start view items options D →
           0 < numExamples options ≤ the_sampleSize items options →
           Z.of_nat (length res) = numExamples options)).
Proof.
  intros Hv Hne Hn Hle. unfold selectDiverseExamples_body. rewrite Hv.
  rewrite (bool_decide_eq_false_2 (length items = 0%nat))
    by (by destruct items).
  rewrite (bool_decide_eq_false_2 _ Hn). simpl.
  rewrite (bool_decide_eq_false_2 (Z.of_nat (length items) < _)) by lia.
  pose proof (the_sampleSize_pos items options Hv Hne) as Hs.
  eapply (hoare_bind _ _ _
            (λ sampled, sampled ⊆+ items
               ∧ length sampled
                 = Z.to_nat (Z.min (the_sampleSize items options)
                                   (Z.of_nat (length items))))).
  { case_bool_decide.
    - apply hoare_getEfficientSample; (done || lia).
    - apply hoare_ret. split; [done | lia]. }
  intros sampled [Hsub Hlen].
  eapply hoare_bind.
  { apply hoare_first_pick. intros ->. simpl in Hlen.
    destruct items; [done|]. simpl in Hlen. lia. }
  intros [first remainingItems] (x & -> & Hperm). simpl in *.
  eapply hoare_bind.
  { apply (hoare_select_loop (length remainingItems) [x] remainingItems);
      [|done].
    intros y Hy. simpl in Hy. rewrite Hperm in Hy.
    eapply elem_of_submseteq; done. }
  intros res ((rest & Hrest) & Hshort & Hcount). simpl in *.
  apply hoare_ret. exists x, res. split; [done|].
  split; [|split; [|split]].
  - eapply elem_of_submseteq; [|exact Hsub]. rewrite <-Hperm. by left.
  - trans (res ++ rest); [by apply submseteq_inserts_r|].
    by rewrite Hrest, Hperm.
  - intros. apply Hshort. lia.
  - intros Hmin Habove Hrange.
    rewrite (Hcount Hmin Habove ltac:(done) (Z.to_nat (numExamples options))); [lia..|].
    assert (length sampled = S (length remainingItems)) as Hl
      by by rewrite <-Hperm.
    lia.
Qed.

End Selection.

(** ** Counts, positions and the cache *)

Section Results.

Context {num : Type} `{!Number num}.
Context {T : Type} `{!EqDecision T}.
Variable view : T → value num.

Implicit Types (items : list T) (options : SelectorOptions num T).
Implicit Types (rng : list N).

Lemma Math_min_elem `{!MinLaws num} (ds : list num) :
  ds ≠ [] → Math_min ds ∈ ds.
Proof.
  destruct ds as [|d ds]; [done|]. intros _.
  unfold Math_min. simpl. rewrite nmin_infinity.
  revert d. induction ds as [|d' ds IH]; intros d; simpl.
  - by left.
  - destruct (nmin_sel d d') as [-> | ->].
    + specialize (IH d). set_unfold. tauto.
    + right. apply IH.
Qed.

(** C10.  With a negative [numExamples], a non-empty collection and options
    that pass validation, [selectDiverseExamples] raises nothing and returns
    exactly one element of the collection, the first pick. *)
Theorem C10_negative_count_gives_one items options rng :
  items ≠ [] →
  numExamples options < 0 →
  validateOptions options = Return () →
  ∃ x, x ∈ items
       ∧ (selectDiverseExamples view items options rng).1 = Return [x].
Proof.
  intros Hne Hneg Hv.
  assert (entropy_free (λ _ : run num T, True)) as Hfree by done.
  assert (∀ a b, a ∈ items → b ∈ items →
            hoare (λ _, True) (getCachedDistance view items options a b)
              (λ _, True)) as Hcached
    by (intros a b _ _ st _; done).
  destruct (hoare_select_main view items options _ _ Hfree Hcached Hv Hne
              ltac:(lia) ltac:(lia) (mkRun rng ∅ []) I)
    as [_ (first & res & Hres & Hfirst & _ & Hone & _)].
  exists first. split; [done|].
  unfold selectDiverseExamples. rewrite Hres, Hone by lia. done.
Qed.

(** C1.  For options that pass validation and
    [0 < numExamples ≤ |items|], when the working set is large enough
    ([numExamples] does not exceed the sample size in force) and every score
    that can be computed on the collection exceeds the initial [maxScore] of
    [-1], [selectDiverseExamples] returns exactly [numExamples] elements,
    taken from pairwise distinct positions of [items]. *)
Theorem C1_exact_count_distinct_positions `{!MinLaws num}
    items options rng :
  validateOptions options = Return () →
  0 < numExamples options ≤ Z.of_nat (length items) →
  numExamples options ≤ the_sampleSize items options →
  (∀ a b c, a ∈ items → b ∈ items → c ∈ items →
     nltb (of_Z (-1))
       (score_of view options c (the_distanceFunction view options a b))
     = true) →
  ∃ selected,
    (selectDiverseExamples view items options rng).1 = Return selected
    ∧ Z.of_nat (length selected) = numExamples options
    ∧ selected ⊆+ items.
Proof.
  intros Hv Hrange Hsample Hscore.
  set (D := λ d : num, ∀ c, c ∈ items →
                nltb (of_Z (-1)) (score_of view options c d) = true).
  set (J := λ st : run num T, ∀ k d, distanceCache st !! k = Some d → D d).
  assert (hoare J (selectDiverseExamples_body view items options)
            (λ c, ∃ first res, c = Return res ∧ first ∈ items ∧ res ⊆+ items
                    ∧ (numExamples options ≤ 1 → res = [first])
                    ∧ (min_keeps D → scores_above_start view items options D →
                       0 < numExamples options ≤ the_sampleSize items options →
                       Z.of_nat (length res) = numExamples options)))
    as Hmain.
  { apply (hoare_select_main view items options J D);
      [ | | done | | lia | lia].
    - intros e e' c l HJ k d. apply (HJ k d).
    - intros a b Ha Hb st HJ. unfold getCachedDistance.
      destruct (distanceCache st !! cache_key items a b) as [d|] eqn:Hk; simpl.
      + split; [done|]. by eapply HJ.
      + split; [|intros c Hc; by apply Hscore].
        intros k d. simpl. rewrite lookup_insert. case_decide.
        * intros [= <-] c Hc. by apply Hscore.
        * apply HJ.
    - intros ->. simpl in Hrange. lia. }
  destruct (Hmain (mkRun rng ∅ []))
    as [_ (first & res & Hres & _ & Hsub & _ & Hcount)].
  { intros k d. simpl. by rewrite lookup_empty. }
  exists res. unfold selectDiverseExamples. rewrite Hres.
  split; [done|]. split; [|done]. apply Hcount; [| |lia].
  - intros ds Hne Hds. rewrite Forall_forall in Hds.
    by apply Hds, Math_min_elem.
  - intros d c Hd Hc. by apply Hd.
Qed.

Lemma getCachedDistance_cache_matches_calls items options a b :
  hoare (cache_matches_calls items)
    (getCachedDistance view items options a b) (λ _, True).
Proof.
  intros st [Hnd Hdom]. unfold getCachedDistance.
  destruct (distanceCache st !! cache_key items a b) as [d|] eqn:Hk; simpl.
  { done. }
  split; [|done]. split; simpl.
  - rewrite fmap_app. apply NoDup_app. split; [done|]. split.
    + intros k Hin. simpl. rewrite list_elem_of_singleton. intros ->.
      apply Hdom in Hin. unfold key_of_pair in Hin. simpl in Hin.
      rewrite Hk in Hin. by destruct Hin.
    + apply NoDup_singleton.
  - intros k. rewrite fmap_app, elem_of_app. simpl.
    rewrite list_elem_of_singleton, lookup_insert.
    unfold key_of_pair at 2. simpl. case_decide.
    + subst. split; [by eauto | by right].
    + rewrite Hdom. split; [by intros [?|?] | by left].
Qed.

Lemma cache_matches_calls_body items options :
  hoare (cache_matches_calls items)
    (selectDiverseExamples_body view items options) (λ _, True).
Proof.
  assert (entropy_free (num := num) (cache_matches_calls items)) as Hfree
    by (intros e e' c l HJ; exact HJ).
  destruct (validateOptions options) as [[]|e] eqn:Hv.
  2: { intros st HJ. unfold selectDiverseExamples_body. by rewrite Hv. }
  destruct (decide (items = [] ∨ numExamples options = 0)) as [Htriv|Hmain].
  { intros st HJ. unfold selectDiverseExamples_body. rewrite Hv.
    destruct Htriv as [-> | ->]; simpl; [done|]. by rewrite orb_true_r. }
  destruct (decide (Z.of_nat (length items) < numExamples options)) as [Hlt|Hge].
  { intros st HJ. unfold selectDiverseExamples_body. rewrite Hv.
    rewrite (bool_decide_eq_false_2 (length items = 0%nat))
      by (destruct items; naive_solver).
    rewrite (bool_decide_eq_false_2 (numExamples options = 0)) by tauto.
    simpl. by rewrite (bool_decide_eq_true_2 _ Hlt). }
  eapply hoare_weaken; [|done].
  apply (hoare_select_main view items options _ (λ _, True));
    [done | | done | tauto | tauto | lia].
  intros a b _ _. apply getCachedDistance_cache_matches_calls.
Qed.

Lemma select_cache_matches_calls items options rng :
  let st := (selectDiverseExamples view items options rng).2 in
  cache_matches_calls items st ∧ NoDup (position_pair items <$> calls st)
  ∧ NoDup (calls st).
Proof.
  intros st.
  destruct (cache_matches_calls_body items options
              (mkRun (T := T) rng (∅ : gmap string num) []))
    as [[Hnd Hdom] _].
  { split; simpl; [apply NoDup_nil_2|].
    intros k. rewrite lookup_empty.
    split; [by intros ?%elem_of_nil|by intros []]. }
  assert (NoDup (position_pair items <$> calls st)) as Hpos.
  { apply (NoDup_fmap_1 (λ ij : Z * Z, pretty ij.1 +:+ "-" +:+ pretty ij.2)).
    rewrite <-list_fmap_compose. exact Hnd. }
  split; [done|]. split; [done|]. by apply NoDup_fmap_1 in Hpos.
Qed.

End Results.

(** ** Unordered pairs of positions *)

Section Unordered.

Context {num : Type} `{!Number num}.
Context {T : Type} `{!EqDecision T}.
Variable view : T → value num.
Variable items : list T.
Variable options : SelectorOptions num T.

Implicit Types (selected rest : list T) (st : run num T).

Lemma hoare_getCachedDistance_follow selected (a b : T) :
  a ∈ items → b ∈ items → a ∉ selected → b ∈ selected →
  hoare (calls_follow items selected)
    (getCachedDistance view items options a b) (λ _, True).
Proof.
  intros Ha Hbi Hna Hb st Hst. unfold getCachedDistance.
  destruct (distanceCache st !! cache_key items a b); simpl; [done|].
  split; [|done]. intros x y. simpl. rewrite elem_of_app, list_elem_of_singleton.
  intros [Hin|[= -> ->]]; [by apply Hst|].
  split; [done|]. split; [done|]. split; [done|]. split; [by intros ->|].
  intros i j Hi%list_elem_of_lookup_2. done.
Qed.

Lemma hoare_scan_follow selected rest (i : nat) (b : best) :
  (∀ x, x ∈ selected → x ∈ items) →
  (∀ x, x ∈ rest → x ∈ items ∧ x ∉ selected) →
  hoare (calls_follow items selected)
    (scan view items options selected rest i b) (λ _, True).
Proof.
  intros Hsel. revert i b.
  induction rest as [|item rest IH]; intros i b Hrest; simpl.
  - by apply hoare_ret.
  - eapply hoare_bind.
    { apply (hoare_mapM _ _ _ (λ _, True)). intros s Hs.
      destruct (Hrest item) as [? ?]; [by left|].
      apply hoare_getCachedDistance_follow; auto. }
    intros ds _. apply IH. intros x Hx. apply Hrest. by right.
Qed.

Lemma calls_follow_snoc selected (x : T) st :
  NoDup (selected ++ [x]) →
  calls_follow items selected st → calls_follow items (selected ++ [x]) st.
Proof.
  intros Hnd Hst a b Hab.
  destruct (Hst a b Hab) as (Ha & Hbi & Hb & Hne & Hidx).
  split; [done|]. split; [done|].
  split; [apply elem_of_app; by left|]. split; [done|].
  intros i j Hi Hj.
  apply list_elem_of_lookup in Hb as [j' Hj'].
  assert (j = j') as ->.
  { eapply NoDup_lookup; [exact Hnd|exact Hj|]. by apply lookup_app_l_Some. }
  destruct (decide (i < length selected)%nat) as [Hlt|Hge].
  - apply (Hidx i j'); [|done]. by rewrite lookup_app_l in Hi.
  - apply lookup_lt_Some in Hj'. lia.
Qed.

Lemma select_loop_follow (fuel : nat) selected rest st :
  NoDup (selected ++ rest) →
  (∀ x, x ∈ selected ++ rest → x ∈ items) →
  calls_follow items selected st →
  let r := select_loop view items options fuel selected rest st in
  calls_follow items r.1 r.2 ∧ NoDup r.1.
Proof.
  revert selected rest st.
  induction fuel as [|fuel IH]; intros selected rest st Hnd Hin Hst; simpl.
  { split; [done|]. by apply NoDup_app in Hnd as [? _]. }
  destruct (_ && _).
  2: { split; [done|]. by apply NoDup_app in Hnd as [? _]. }
  unfold bind.
  pose proof (hoare_scan_follow selected rest 0 (of_Z (-1), None)) as Hscan.
  pose proof (hoare_scan view items options (λ _, True) (λ _, True)
                ltac:(by intros ???? _) selected rest 0 (of_Z (-1), None))
    as Hpos.
  destruct (Hscan) with (st := st) as [Hst' _]; [| |done|].
  { intros x Hx. apply Hin, elem_of_app. by left. }
  { intros x Hx. split; [apply Hin, elem_of_app; by right|].
    apply NoDup_app in Hnd as (_ & Hdisj & _). intros Hs. by apply (Hdisj x). }
  destruct (Hpos) with (st := st) as [_ [Hwhere _]]; [..|done|].
  { intros x Hx. apply Hin, elem_of_app. by left. }
  { intros x Hx. apply Hin, elem_of_app. by right. }
  destruct (scan view items options selected rest 0 (of_Z (-1), None) st)
    as [[maxScore [[bestItem bestIndex]|]] st']; simpl in *.
  2: { split; [done|]. by apply NoDup_app in Hnd as [? _]. }
  destruct (Hwhere _ _ eq_refl) as [[=]|[_ Hbest]].
  rewrite Nat.sub_0_r in Hbest. rewrite splice1_delete.
  apply delete_Permutation in Hbest as Hperm.
  assert (NoDup ((selected ++ [bestItem]) ++ delete bestIndex rest)) as Hnd'.
  { rewrite <-app_assoc. simpl. by rewrite <-Hperm. }
  apply IH; [done| |].
  - intros x Hx. apply Hin. rewrite Hperm. revert Hx. set_unfold. tauto.
  - apply calls_follow_snoc; [|done]. by apply NoDup_app in Hnd' as [? _].
Qed.

Lemma submseteq_NoDup_l (l k : list T) : l ⊆+ k → NoDup k → NoDup l.
Proof.
  intros [k' Hk]%submseteq_Permutation Hnd. rewrite Hk in Hnd.
  by apply NoDup_app in Hnd as [? _].
Qed.

(** In a run over a collection without repeated object, the calls made
    follow the order of the selection returned. *)
Lemma select_calls_follow (rng : list N) :
  NoDup items →
  let r := selectDiverseExamples view items options rng in
  ∃ selected, calls_follow items selected r.2.
Proof.
  intros Hnd r. subst r. unfold selectDiverseExamples.
  set (st0 := mkRun rng ∅ []).
  assert (calls st0 = []) as Hst0 by done.
  assert (∀ st, calls st = [] → calls_follow items [] st) as Hempty.
  { intros st Hc x y. rewrite Hc. by intros ?%elem_of_nil. }
  unfold selectDiverseExamples_body.
  destruct (validateOptions options) as [[]|e] eqn:Hv; [|by eauto].
  destruct (bool_decide (length items = 0%nat)
            || bool_decide (numExamples options = 0)) eqn:Hguard;
    [by eauto|].
  apply orb_false_elim in Hguard as
      [Hne%bool_decide_eq_false Hn%bool_decide_eq_false].
  case_bool_decide; [by eauto|].
  assert (items ≠ []) as Hitems by (by intros ->).
  pose proof (the_sampleSize_pos items options Hv Hitems) as Hs.
  set (J := λ st : run num T, calls st = []).
  assert (entropy_free J) as Hfree by (intros ???? HJ; exact HJ).
  unfold bind.
  (* the working set *)
  assert (hoare J
            (if bool_decide (the_sampleSize items options
                             < Z.of_nat (length items))
             then getEfficientSample items (the_sampleSize items options)
             else ret items)
            (λ sampled, sampled ⊆+ items ∧ sampled ≠ [])) as Hsample.
  { case_bool_decide.
    - eapply hoare_weaken; [apply hoare_getEfficientSample; (done || lia)|].
      intros sampled [Hsub Hlen]. split; [done|]. intros ->. simpl in Hlen.
      destruct items; [done|]. simpl in Hlen. lia.
    - by apply hoare_ret. }
  destruct (Hsample st0 Hst0) as [HJ1 [Hsub Hsne]].
  destruct (_ st0) as [sampled st1]. simpl in HJ1, Hsub, Hsne.
  (* the first pick *)
  destruct (hoare_first_pick view options J Hfree sampled Hsne st1 HJ1)
    as [HJ2 (x & Hx & Hperm)].
  destruct (first_pick view options sampled st1) as [[first rest] st2].
  simpl in HJ2, Hx, Hperm. subst first. simpl.
  (* the loop *)
  assert (NoDup ([x] ++ rest)) as Hnd'.
  { simpl. rewrite Hperm. by eapply submseteq_NoDup_l. }
  destruct (select_loop_follow (length rest) [x] rest st2 Hnd') as [Hfollow _].
  { intros y Hy. simpl in Hy. rewrite Hperm in Hy.
    by eapply elem_of_submseteq. }
  { intros a b. rewrite HJ2. by intros ?%elem_of_nil. }
  destruct (select_loop view items options (length rest) [x] rest st2)
    as [res st3]. simpl in *. eauto.
Qed.

Lemma indexOf_inj (a b : T) :
  a ∈ items → b ∈ items → indexOf items a = indexOf items b → a = b.
Proof.
  intros (i & Hi & Ha)%indexOf_lookup (j & Hj & Hb)%indexOf_lookup Heq.
  assert (i = j) as -> by lia. congruence.
Qed.

(** Without repeated object, no unordered pair of positions is measured
    twice. *)
Lemma select_unordered_once (rng : list N) :
  NoDup items →
  NoDup (unordered_pair items
           <$> calls (selectDiverseExamples view items options rng).2).
Proof.
  intros Hnd.
  destruct (select_calls_follow rng Hnd) as [selected Hfollow].
  destruct (select_cache_matches_calls view items options rng)
    as (_ & _ & Hpos).
  set (log := calls (selectDiverseExamples view items options rng).2) in *.
  apply NoDup_fmap_2_strong; [|done].
  intros [x y] [x' y'] Hp Hq Heq.
  destruct (Hfollow _ _ Hp) as (Hx & Hyi & Hy & Hne & Hidx).
  destruct (Hfollow _ _ Hq) as (Hx' & Hyi' & Hy' & Hne' & Hidx').
  unfold unordered_pair in Heq. simpl in Heq.
  assert (indexOf items x = indexOf items x'
          ∧ indexOf items y = indexOf items y'
          ∨ indexOf items x = indexOf items y'
            ∧ indexOf items y = indexOf items x') as [[Hxx Hyy]|[Hxy Hyx]]
    by (injection Heq; lia).
  - apply indexOf_inj in Hxx, Hyy; try done. by subst.
  - apply indexOf_inj in Hxy, Hyx; try done. subst x' y'.
    apply list_elem_of_lookup in Hy as [j Hj], Hy' as [i Hi].
    pose proof (Hidx i j Hi Hj). pose proof (Hidx' j i Hj Hi). lia.
Qed.


(** C5.  In a run of [selectDiverseExamples] distances are cached
    under a key that tells the ordered pair of the two records' positions (of
    first occurrence) in the original collection, and the distance function
    is evaluated at most once for every such ordered pair: the calls made
    carry pairwise different keys, hence pairwise different position pairs,
    and the cache ends up holding exactly the keys of those calls.  When no
    object occurs twice in the collection, the calls made also have pairwise
    different unordered pairs of positions. *)
Theorem C5_each_ordered_pair_evaluated_once (rng : list N) :
  let st := (selectDiverseExamples view items options rng).2 in
  NoDup (key_of_pair items <$> calls st)
  ∧ NoDup (position_pair items <$> calls st)
  ∧ (∀ k, k ∈ key_of_pair items <$> calls st
          ↔ is_Some (distanceCache st !! k))
  ∧ (∀ a b a' b', a ∈ items → b ∈ items → a' ∈ items → b' ∈ items →
       cache_key items a b = cache_key items a' b' → a = a' ∧ b = b')
  ∧ (NoDup items → NoDup (unordered_pair items <$> calls st)).
Proof.
  intros st.
  destruct (select_cache_matches_calls view items options rng)
    as [[Hnd Hdom] [Hpos _]].
  split; [done|]. split; [done|]. split; [done|]. split.
  - intros a b a' b'. apply cache_key_inj.
  - apply select_unordered_once.
Qed.

End Unordered.


(** ** The default distance in exact arithmetic *)

Section ExactArithmetic.

Local Open Scope Qc_scope.

Implicit Types (a b c : exact) (p q : Qc).

Lemma exact_add_comm a b : Exact.add a b = Exact.add b a.
Proof. destruct a, b; simpl; try done. f_equal. ring. Qed.

Lemma exact_add_assoc a b c :
  Exact.add (Exact.add a b) c = Exact.add a (Exact.add b c).
Proof. destruct a, b, c; simpl; try done. f_equal. ring. Qed.

Lemma qltb_irrefl p : Exact.qltb p p = false.
Proof. apply bool_decide_eq_false, (irreflexivity Qclt). Qed.

Lemma qltb_asym p q : Exact.qltb p q = true → Exact.qltb q p = false.
Proof.
  unfold Exact.qltb. rewrite bool_decide_eq_true, bool_decide_eq_false.
  intros H1 H2. apply (irreflexivity Qclt p). by etrans.
Qed.

Lemma qltb_total p q :
  Exact.qltb p q = false → Exact.qltb q p = false → p = q.
Proof.
  unfold Exact.qltb. rewrite !bool_decide_eq_false.
  intros H1%Qcnot_lt_le H2%Qcnot_lt_le. by apply Qcle_antisym.
Qed.

Lemma qltb_opp p : Exact.qltb (- p) 0 = Exact.qltb 0 p.
Proof.
  unfold Exact.qltb. apply bool_decide_ext.
  rewrite (Qclt_minus_iff (- p) 0), (Qclt_minus_iff 0 p).
  by replace (0 + - - p) with (p + - 0) by ring.
Qed.

Lemma exact_abs_opp a : Exact.abs (Exact.opp a) = Exact.abs a.
Proof.
  destruct a as [p| | |]; try done. unfold Exact.abs, Exact.opp. f_equal.
  rewrite qltb_opp.
  destruct (Exact.qltb 0 p) eqn:H1, (Exact.qltb p 0) eqn:H2; try done.
  - by rewrite (qltb_asym _ _ H1) in H2.
  - ring.
  - rewrite <-(qltb_total _ _ H1 H2). ring.
Qed.

Lemma exact_sub_opp a b : Exact.sub b a = Exact.opp (Exact.sub a b).
Proof.
  unfold Exact.sub. destruct a, b; simpl; try done. f_equal. ring.
Qed.

Lemma exact_abs_sub a b :
  Exact.abs (Exact.sub a b) = Exact.abs (Exact.sub b a).
Proof. by rewrite (exact_sub_opp a b), exact_abs_opp. Qed.

Lemma exact_ltb_asym a b : Exact.ltb a b = true → Exact.ltb b a = false.
Proof. destruct a, b; simpl; try done. apply qltb_asym. Qed.

Lemma exact_ltb_total a b :
  a ≠ NaN → b ≠ NaN → Exact.ltb a b = false → Exact.ltb b a = false → a = b.
Proof.
  destruct a, b; simpl; try done. intros _ _ H1 H2. f_equal.
  by apply qltb_total.
Qed.

Lemma exact_max_comm a b : Exact.max a b = Exact.max b a.
Proof.
  destruct a as [p| | |], b as [q| | |]; try done. simpl.
  destruct (Exact.qltb p q) eqn:H1, (Exact.qltb q p) eqn:H2; try done.
  - by rewrite (qltb_asym _ _ H1) in H2.
  - f_equal. by apply qltb_total.
Qed.

End ExactArithmetic.

(** ** Structure of the default distance *)

Section Distance.

Context {num : Type} `{!Number num}.

Implicit Types (key : string) (v : value num).

Lemma distance_step_eq (flat1 flat2 : flat num) (d : num) (n : nat) key :
  distance_step flat1 flat2 (d, n) key
  = (nadd d (penalty flat1 flat2 key),
     if compared flat1 flat2 key then S n else n).
Proof.
  unfold distance_step, penalty, compared.
  destruct (is_undefined _ || is_undefined _); simpl; [done|].
  by destruct (obj_get flat1 key), (obj_get flat2 key).
Qed.

Lemma fold_distance_step (flat1 flat2 : flat num) (keys : list string) (d : num) (n : nat) :
  fold_left (distance_step flat1 flat2) keys (d, n)
  = (fold_left nadd (penalty flat1 flat2 <$> keys) d,
     (n + length (filter (λ k, compared flat1 flat2 k = true) keys))%nat).
Proof.
  revert d n. induction keys as [|k keys IH]; intros d n.
  - simpl. by rewrite Nat.add_0_r.
  - cbn [fold_left]. rewrite distance_step_eq, IH. f_equal.
    rewrite filter_cons.
    destruct (compared flat1 flat2 k); case_decide; simpl; try done; lia.
Qed.

(** The result of [defaultDistance]: the sum of the penalties of the paths of
    the union over the number of these paths, or [1] when no path is a valid
    comparison. *)
Lemma defaultDistance_formula (obj1 obj2 : value num) :
  let flat1 := getFlattenedObject obj1 in
  let flat2 := getFlattenedObject obj2 in
  let allKeys := new_Set (Object_keys flat1 ++ Object_keys flat2) in
  defaultDistance obj1 obj2
  = if bool_decide
         (0 < length (filter (λ k, compared flat1 flat2 k = true) allKeys))%nat
    then ndiv (fold_left nadd (penalty flat1 flat2 <$> allKeys) (of_Z 0))
              (of_nat (length allKeys))
    else of_Z 1.
Proof. intros. unfold defaultDistance. by rewrite fold_distance_step. Qed.

Lemma compared_sym (flat1 flat2 : flat num) key :
  compared flat1 flat2 key = compared flat2 flat1 key.
Proof. unfold compared. by rewrite orb_comm. Qed.

Lemma strict_eq_sym v1 v2 : strict_eq v1 v2 = strict_eq v2 v1.
Proof.
  destruct v1, v2; simpl; try done; apply bool_decide_ext; naive_solver.
Qed.

(** *** The set of paths *)

Lemma fold_Set_add (l s : list string) :
  NoDup s →
  NoDup (fold_left Set_add l s)
  ∧ ∀ k, k ∈ fold_left Set_add l s ↔ k ∈ s ∨ k ∈ l.
Proof.
  revert s. induction l as [|x l IH]; intros s Hs; simpl.
  - split; [done|]. intros k. set_unfold. tauto.
  - destruct (IH (Set_add s x)) as [Hnd Hin].
    { unfold Set_add. case_decide; [done|].
      apply NoDup_app. split; [done|]. split; [|apply NoDup_singleton].
      intros y Hy Hx. apply list_elem_of_singleton in Hx. by subst. }
    split; [done|]. intros k. rewrite Hin. unfold Set_add.
    case_decide; set_unfold; intuition (subst; auto).
Qed.

Lemma new_Set_NoDup (l : list string) : NoDup (new_Set l).
Proof. apply fold_Set_add, NoDup_nil_2. Qed.

Lemma elem_of_new_Set (l : list string) k : k ∈ new_Set l ↔ k ∈ l.
Proof.
  unfold new_Set. destruct (fold_Set_add l [] (NoDup_nil_2)) as [_ ->].
  set_unfold. tauto.
Qed.

Lemma new_Set_comm (l1 l2 : list string) :
  new_Set (l1 ++ l2) ≡ₚ new_Set (l2 ++ l1).
Proof.
  apply NoDup_Permutation; try apply new_Set_NoDup.
  intros k. rewrite !elem_of_new_Set. set_unfold. tauto.
Qed.

Lemma new_Set_nil_inv (l : list string) : new_Set l = [] → l = [].
Proof.
  intros Hs. destruct l as [|k l]; [done|].
  assert (k ∈ new_Set (k :: l)) as Hk by (apply elem_of_new_Set; by left).
  rewrite Hs in Hk. by apply elem_of_nil in Hk.
Qed.

(** *** Leaves of a flattened record *)

Lemma obj_get_elem (o : flat num) key :
  key ∈ Object_keys o → obj_get o key ∈ Object_values o.
Proof.
  unfold Object_keys, Object_values.
  induction o as [|[k v] o IH]; simpl; [by intros ?%elem_of_nil|].
  intros Hk. case_decide; [by left|]. right. apply IH.
  apply elem_of_cons in Hk as [?|?]; [congruence|done].
Qed.

Lemma obj_set_scalar (o : flat num) key v :
  Forall is_scalar (Object_values o) → is_scalar v →
  Forall is_scalar (Object_values (obj_set o key v)).
Proof.
  unfold Object_values. intros Ho Hv.
  induction o as [|[k w] o IH]; simpl.
  - by repeat constructor.
  - inversion_clear Ho. case_decide; simpl; constructor; auto.
Qed.

Lemma Object_assign_scalar (target source : flat num) :
  Forall is_scalar (Object_values target) →
  Forall is_scalar (Object_values source) →
  Forall is_scalar (Object_values (Object_assign target source)).
Proof.
  unfold Object_assign. revert target.
  induction source as [|[k v] source IH]; intros target Ht Hs; simpl; [done|].
  unfold Object_values in Hs. simpl in Hs. inversion_clear Hs.
  apply IH; [|done]. by apply obj_set_scalar.
Qed.

Lemma flattenObject_scalar :
  ∀ (obj : value num) (prefix : string),
    Forall is_scalar (Object_values (flattenObject obj prefix)).
Proof.
  fix flattenObject_scalar 1. intros obj prefix.
  destruct obj as [| | | | |props|elems]; simpl; try by constructor.
  - assert (Forall is_scalar (Object_values ([] : flat num))) as Hacc
      by constructor.
    revert Hacc. generalize ([] : flat num).
    induction props as [|[key v] props IH]; intros acc Hacc; [done|].
    apply IH. destruct (is_object v) eqn:Hv.
    + apply Object_assign_scalar; [done|]. apply flattenObject_scalar.
    + by apply obj_set_scalar.
  - assert (Forall is_scalar (Object_values ([] : flat num))) as Hacc
      by constructor.
    revert Hacc. generalize ([] : flat num). generalize 0%nat.
    induction elems as [|v elems IH]; intros i acc Hacc; [done|].
    apply IH. destruct (is_object v) eqn:Hv.
    + apply Object_assign_scalar; [done|]. apply flattenObject_scalar.
    + by apply obj_set_scalar.
Qed.

End Distance.

Lemma filter_all {A : Type} (P : A → Prop) `{!∀ x, Decision (P x)}
    (l : list A) :
  Forall P l → filter P l = l.
Proof.
  induction 1 as [|x l Hx _ IH]; [done|].
  rewrite filter_cons_True by done. by f_equal.
Qed.

Lemma fold_left_permutation {A B : Type} (f : A → B → A) (l l' : list B) :
  (∀ a x y, f (f a x) y = f (f a y) x) →
  l ≡ₚ l' → ∀ a, fold_left f l a = fold_left f l' a.
Proof.
  intros Hf Hp. induction Hp as [|x l l' _ IH|x y l|l l' l'' _ IH1 _ IH2];
    intros a; simpl.
  - done.
  - apply IH.
  - by rewrite Hf.
  - by rewrite IH1.
Qed.

Section ExactDistance.

Implicit Types (key : string) (v : value exact).

Local Open Scope Qc_scope.

Lemma exact_zero : (of_Z 0 : exact) = Fin 0.
Proof. unfold of_Z. simpl. by rewrite Z2Qc_inj_0. Qed.

Lemma exact_of_nat_pos (n : nat) :
  (0 < n)%nat → ∃ q, (of_nat n : exact) = Fin q ∧ q ≠ 0.
Proof.
  intros Hn. exists (Qc_of_Z (Z.of_nat n)). split; [done|].
  rewrite <-Z2Qc_inj_0. intros Heq%Z2Qc_inj. lia.
Qed.

Lemma exact_div_zero q : q ≠ 0 → Exact.div (Fin 0) (Fin q) = Fin 0.
Proof.
  intros Hq. simpl. rewrite bool_decide_eq_false_2 by done. f_equal.
  unfold Qcdiv. ring.
Qed.

(** A number that is not infinite is at distance [0] from itself. *)
Lemma exact_number_penalty_self (n : exact) :
  nabs n ≠ infinity →
  (if ngtb (nmax (nabs n) (nabs n)) (of_Z 0)
   then ndiv (nabs (nsub n n)) (nmax (nabs n) (nabs n))
   else of_Z 0) = of_Z 0.
Proof.
  intros Hn. destruct n as [q| | |]; try done.
  set (m := if Exact.qltb q 0 then - q else q).
  assert (nabs (Fin q) = Fin m) as -> by done.
  assert (nmax (Fin m) (Fin m) = Fin m) as ->.
  { simpl. by rewrite qltb_irrefl. }
  assert (nabs (nsub (Fin q) (Fin q)) = Fin 0) as ->.
  { simpl. replace (q + - q) with 0 by ring. by rewrite qltb_irrefl. }
  rewrite exact_zero. unfold ngtb. simpl nltb. unfold Exact.ltb.
  destruct (Exact.qltb 0 m) eqn:Hm; [|done].
  apply exact_div_zero. intros Hz. by rewrite Hz, qltb_irrefl in Hm.
Qed.

Lemma exact_zero_div_count (k : nat) :
  (0 < k)%nat → ndiv (of_Z 0) (of_nat k) = (of_Z 0 : exact).
Proof.
  intros Hk. destruct (exact_of_nat_pos k Hk) as (q & -> & Hq).
  rewrite exact_zero. by apply exact_div_zero.
Qed.

Lemma exact_add_zero : nadd (of_Z 0 : exact) (of_Z 0) = of_Z 0.
Proof. rewrite exact_zero. simpl. by f_equal. Qed.

End ExactDistance.

#[global] Instance exact_ZeroLaws : ZeroLaws exact.
Proof.
  split.
  - apply exact_number_penalty_self.
  - apply exact_add_zero.
  - intros k Hk _. by apply exact_zero_div_count.
Qed.

(** ** Zero in binary64 *)

Section FloatZero.

Implicit Types (n : float).

Lemma SFcompare_finite_refl (m : positive) (e : Z) :
  SFcompare (S754_finite false m e) (S754_finite false m e) = Some Eq.
Proof. simpl. by rewrite Z.compare_refl, Pos.compare_cont_refl. Qed.

Lemma float_max_self n : Float64.max n n = n.
Proof. unfold Float64.max. by repeat case_match. Qed.

Lemma SFsub_self (s : bool) (m : positive) (e : Z) :
  SF64sub (S754_finite s m e) (S754_finite s m e) = S754_zero false.
Proof. unfold SF64sub, SFsub. by rewrite Z.sub_diag. Qed.

Lemma float_number_penalty_self n :
  PrimFloat.abs n ≠ PrimFloat.infinity →
  (if ngtb (nmax (nabs n) (nabs n)) (of_Z 0)
   then ndiv (nabs (nsub n n)) (nmax (nabs n) (nabs n))
   else of_Z 0) = (of_Z 0 : float).
Proof.
  intros Hfin. simpl. rewrite float_max_self. unfold ngtb. simpl.
  destruct (PrimFloat.ltb PrimFloat.zero (PrimFloat.abs n)) eqn:Hlt; [|done].
  apply Prim2SF_inj.
  rewrite div_spec, !abs_spec, sub_spec.
  rewrite ltb_spec, abs_spec in Hlt.
  destruct (Prim2SF n) as [s|s| |s m e] eqn:Hn.
  - done.
  - destruct Hfin. apply Prim2SF_inj. rewrite abs_spec, Hn. done.
  - done.
  - by rewrite SFsub_self.
Qed.

Lemma digits2_pos_iter_xO (p k : positive) :
  digits2_pos (Pos.iter xO p k) = (digits2_pos p + k)%positive.
Proof.
  induction k as [|k IH] using Pos.peano_ind.
  - simpl. lia.
  - rewrite Pos.iter_succ. simpl. rewrite IH. lia.
Qed.

Lemma digits2_pos_lower (p : positive) :
  2 ^ (Zpos (digits2_pos p) - 1) ≤ Zpos p.
Proof.
  induction p as [p IH|p IH|]; simpl digits2_pos.
  - rewrite Pos2Z.inj_succ.
    replace (Z.succ (Zpos (digits2_pos p)) - 1)
      with (Z.succ (Zpos (digits2_pos p) - 1)) by lia.
    rewrite Z.pow_succ_r by lia. lia.
  - rewrite Pos2Z.inj_succ.
    replace (Z.succ (Zpos (digits2_pos p)) - 1)
      with (Z.succ (Zpos (digits2_pos p) - 1)) by lia.
    rewrite Z.pow_succ_r by lia. lia.
  - done.
Qed.

Lemma digits2_pos_small (p : positive) :
  Zpos p < 2 ^ 53 → Zpos (digits2_pos p) ≤ 53.
Proof.
  intros Hp. pose proof (digits2_pos_lower p) as Hl.
  destruct (decide (Zpos (digits2_pos p) ≤ 53)) as [|Hbig]; [done|].
  assert (2 ^ 53 ≤ 2 ^ (Zpos (digits2_pos p) - 1))
    by (apply Z.pow_le_mono_r; lia).
  lia.
Qed.

Lemma binary_round_aux_canonical (s : bool) (m : positive) (e : Z) :
  fexp prec emax (Zpos (digits2_pos m) + e) = e →
  e ≤ emax - prec →
  binary_round_aux prec emax s (Zpos m) e loc_Exact = S754_finite s m e.
Proof.
  intros Hc He. unfold binary_round_aux, shr_fexp. simpl Zdigits2.
  rewrite Hc, Z.sub_diag. simpl.
  rewrite Hc, Z.sub_diag. simpl.
  by rewrite (proj2 (Z.leb_le _ _) He).
Qed.

Lemma binary_round_count (p : positive) :
  Zpos p < 2 ^ 53 →
  ∃ m e, binary_round prec emax false p 0 = S754_finite false m e.
Proof.
  intros Hp%digits2_pos_small. unfold binary_round, shl_align.
  set (d := Zpos (digits2_pos p)) in *.
  assert (fexp prec emax (d + 0) = d - 53) as ->.
  { unfold fexp, SpecFloat.emin, prec, emax. lia. }
  destruct (d - 53 - 0) as [|k|k] eqn:Hk; [|lia|].
  - exists p, 0. apply binary_round_aux_canonical.
    + fold d. unfold fexp, SpecFloat.emin, prec, emax. lia.
    + unfold prec, emax. lia.
  - exists (Pos.iter xO p k), (d - 53). apply binary_round_aux_canonical.
    + rewrite digits2_pos_iter_xO. rewrite Pos2Z.inj_add. fold d.
      unfold fexp, SpecFloat.emin, prec, emax. lia.
    + unfold prec, emax. lia.
Qed.

Lemma float_zero_div_count (k : nat) :
  (0 < k)%nat → Z.of_nat k < 2 ^ 53 →
  ndiv (of_Z 0) (of_nat k) = (of_Z 0 : float).
Proof.
  intros Hk Hlt. unfold of_nat.
  destruct (Z.of_nat k) as [|p|p] eqn:Hp; [lia| |lia].
  change (PrimFloat.div PrimFloat.zero
            (PrimFloat.of_uint63 (Uint63.of_Z (Zpos p))) = PrimFloat.zero).
  apply Prim2SF_inj. rewrite div_spec, of_uint63_spec.
  rewrite Uint63.of_Z_spec, Z.mod_small.
  2: { split; [lia|]. assert (2 ^ 53 < wB) by done. lia. }
  simpl binary_normalize.
  destruct (binary_round_count p Hlt) as (m & e & ->). done.
Qed.

End FloatZero.

#[global] Instance float_ZeroLaws : ZeroLaws float.
Proof.
  split.
  - apply float_number_penalty_self.
  - reflexivity.
  - apply float_zero_div_count.
Qed.

(** ** Symmetry of a penalty in binary64 *)

Section FloatSymmetry.

Implicit Types (x y : spec_float) (a b : float).

Lemma SFabs_binary_round_aux (s : bool) (m e : Z) (l : location) :
  SFabs (binary_round_aux prec emax s m e l)
  = SFabs (binary_round_aux prec emax false m e l).
Proof.
  unfold binary_round_aux.
  destruct (shr_fexp prec emax m e l) as [mrs' e'].
  destruct (shr_fexp prec emax _ e' loc_Exact) as [mrs'' e''].
  destruct (shr_m mrs''); [done| |done]. by destruct (_ <=? _).
Qed.

Lemma SFabs_binary_normalize_opp (z e : Z) :
  SFabs (binary_normalize prec emax (- z) e false)
  = SFabs (binary_normalize prec emax z e false).
Proof.
  destruct z as [|p|p]; simpl; [done|..]; unfold binary_round;
    destruct (shl_align _ _ _) as [mz ez];
    by rewrite (SFabs_binary_round_aux true).
Qed.

Lemma SFabs_sub_sym x y : SFabs (SF64sub x y) = SFabs (SF64sub y x).
Proof.
  unfold SF64sub.
  destruct x as [sx|sx| |sx mx ex], y as [sy|sy| |sy my ey];
    try (by destruct sx, sy); try done.
  unfold SFsub. rewrite (Z.min_comm ey ex).
  rewrite <-SFabs_binary_normalize_opp. f_equal. f_equal. lia.
Qed.

Lemma float_abs_sub_sym a b :
  PrimFloat.abs (a - b) = PrimFloat.abs (b - a).
Proof.
  apply Prim2SF_inj. rewrite !abs_spec, !sub_spec. apply SFabs_sub_sym.
Qed.

Lemma SFltb_abs_asym x y :
  SFltb (SFabs x) (SFabs y) = true → SFltb (SFabs y) (SFabs x) = false.
Proof.
  unfold SFltb.
  destruct x as [sx|sx| |sx mx ex], y as [sy|sy| |sy my ey]; simpl; try done.
  rewrite (Z.compare_antisym ex ey).
  destruct (ex ?= ey) eqn:He; simpl; try done.
  change (Pos.compare_cont Eq mx my) with (Pos.compare mx my).
  change (Pos.compare_cont Eq my mx) with (Pos.compare my mx).
  rewrite (Pos.compare_antisym mx my).
  by destruct (Pos.compare mx my).
Qed.

Lemma SFabs_trichotomy x y :
  SFabs x ≠ S754_nan → SFabs y ≠ S754_nan →
  SFltb (SFabs x) (SFabs y) = false → SFltb (SFabs y) (SFabs x) = false →
  SFabs x = SFabs y.
Proof.
  unfold SFltb.
  destruct x as [sx|sx| |sx mx ex], y as [sy|sy| |sy my ey]; simpl; try done.
  intros _ _. rewrite (Z.compare_antisym ex ey).
  destruct (ex ?= ey) eqn:He; simpl; try done.
  apply Z.compare_eq in He as ->.
  change (Pos.compare_cont Eq mx my) with (Pos.compare mx my).
  change (Pos.compare_cont Eq my mx) with (Pos.compare my mx).
  rewrite (Pos.compare_antisym mx my).
  destruct (Pos.compare mx my) eqn:Hm; simpl; try done.
  apply Pos.compare_eq in Hm as ->. done.
Qed.

Lemma float_is_nan_spec a :
  PrimFloat.is_nan a = true ↔ Prim2SF a = S754_nan.
Proof.
  unfold PrimFloat.is_nan. rewrite FloatAxioms.eqb_spec. unfold SFeqb.
  destruct (Prim2SF a) as [s|s| |s m e] eqn:Ha; simpl; try done.
  - by destruct s.
  - rewrite Z.compare_refl, Pos.compare_cont_refl.
    destruct s; simpl; done.
Qed.

Lemma float_max_abs_comm a b :
  Float64.max (PrimFloat.abs a) (PrimFloat.abs b)
  = Float64.max (PrimFloat.abs b) (PrimFloat.abs a).
Proof.
  unfold Float64.max.
  destruct (PrimFloat.is_nan (PrimFloat.abs a)) eqn:Ha,
           (PrimFloat.is_nan (PrimFloat.abs b)) eqn:Hb; try done.
  { apply float_is_nan_spec in Ha, Hb. apply Prim2SF_inj. congruence. }
  destruct (PrimFloat.ltb (PrimFloat.abs a) (PrimFloat.abs b)) eqn:Hab,
           (PrimFloat.ltb (PrimFloat.abs b) (PrimFloat.abs a)) eqn:Hba;
    try done.
  - rewrite ltb_spec, !abs_spec in Hab, Hba.
    apply SFltb_abs_asym in Hab. congruence.
  - rewrite ltb_spec, !abs_spec in Hab, Hba.
    apply Prim2SF_inj. rewrite !abs_spec.
    apply SFabs_trichotomy; try done.
    + intros Hn. rewrite <-abs_spec in Hn.
      apply float_is_nan_spec in Hn. congruence.
    + intros Hn. rewrite <-abs_spec in Hn.
      apply float_is_nan_spec in Hn. congruence.
Qed.

End FloatSymmetry.

#[global] Instance float_SymmetryLaws : SymmetryLaws float.
Proof. split; [apply float_abs_sub_sym | apply float_max_abs_comm]. Qed.

#[global] Instance exact_SymmetryLaws : SymmetryLaws exact.
Proof. split; [apply exact_abs_sub | intros a b; apply exact_max_comm]. Qed.

(** ** Symmetry of the default distance *)

Section Symmetry.

Context {num : Type} `{!Number num} `{!SymmetryLaws num}.

Implicit Types (key : string).

Lemma penalty_sym (flat1 flat2 : flat num) key :
  penalty flat1 flat2 key = penalty flat2 flat1 key.
Proof.
  unfold penalty. rewrite (orb_comm (is_undefined (obj_get flat2 key))).
  destruct (is_undefined _ || is_undefined _); [done|].
  destruct (obj_get flat1 key) as [| | |n1| | |] eqn:E1,
           (obj_get flat2 key) as [| | |n2| | |] eqn:E2;
    try done; try (by rewrite strict_eq_sym).
  cbv zeta. by rewrite max_abs_comm, abs_sub_sym.
Qed.

Lemma distance_step_sym (flat1 flat2 : flat num) (st : num * nat) key :
  distance_step flat1 flat2 st key = distance_step flat2 flat1 st key.
Proof.
  destruct st as [d n].
  by rewrite !distance_step_eq, penalty_sym, compared_sym.
Qed.

Lemma fold_distance_step_sym (flat1 flat2 : flat num) (keys : list string)
    (st : num * nat) :
  fold_left (distance_step flat1 flat2) keys st
  = fold_left (distance_step flat2 flat1) keys st.
Proof.
  revert st. induction keys as [|k keys IH]; intros st; [done|].
  cbn [fold_left]. rewrite IH. f_equal. apply distance_step_sym.
Qed.

(** When both calls enumerate the union of the paths in the same order, they
    compute the same sum. *)
Lemma defaultDistance_sym_same_order (a b : value num) :
  new_Set (Object_keys (getFlattenedObject a)
           ++ Object_keys (getFlattenedObject b))
  = new_Set (Object_keys (getFlattenedObject b)
             ++ Object_keys (getFlattenedObject a)) →
  defaultDistance a b = defaultDistance b a.
Proof.
  intros Hkeys. unfold defaultDistance.
  by rewrite Hkeys, fold_distance_step_sym.
Qed.

End Symmetry.

Lemma distance_step_swap (flat1 flat2 : flat exact) (st : exact * nat)
    (k1 k2 : string) :
  distance_step flat1 flat2 (distance_step flat1 flat2 st k1) k2
  = distance_step flat1 flat2 (distance_step flat1 flat2 st k2) k1.
Proof.
  destruct st as [d n]. rewrite !distance_step_eq. f_equal.
  - simpl. rewrite !exact_add_assoc. f_equal. apply exact_add_comm.
  - by destruct (compared flat1 flat2 k1), (compared flat1 flat2 k2).
Qed.

Lemma defaultDistance_sym_exact (a b : value exact) :
  defaultDistance a b = defaultDistance b a.
Proof.
  unfold defaultDistance.
  set (flat1 := getFlattenedObject a). set (flat2 := getFlattenedObject b).
  pose proof (new_Set_comm (Object_keys flat1) (Object_keys flat2)) as Hperm.
  rewrite (fold_left_permutation _ _ _ (distance_step_swap flat1 flat2) Hperm).
  by rewrite fold_distance_step_sym, (Permutation_length Hperm).
Qed.

(** C9.  In exact arithmetic [defaultDistance(a, b)] and
    [defaultDistance(b, a)] are the same value for all records: both calls
    add the same penalties over the same set of paths.  In binary64, for
    records whose flattened paths are ordinary names (so that the paths are
    listed in the order of the assignments, in every engine), the two calls
    return the same value whenever both enumerate the union of the paths in
    the same order; the sums are then taken in the same order.  "The same
    value" is [NaN] both ways or two numbers that [===] holds of. *)
Theorem C9_symmetry :
  (∀ a b : value exact, defaultDistance a b = defaultDistance b a)
  ∧ (∀ a b : value float,
       Forall ordinary_key (Object_keys (getFlattenedObject a)) →
       Forall ordinary_key (Object_keys (getFlattenedObject b)) →
       new_Set (Object_keys (getFlattenedObject a)
                ++ Object_keys (getFlattenedObject b))
       = new_Set (Object_keys (getFlattenedObject b)
                  ++ Object_keys (getFlattenedObject a)) →
       defaultDistance a b = defaultDistance b a
       ∧ (PrimFloat.is_nan (defaultDistance a b) = false →
          PrimFloat.eqb (defaultDistance a b) (defaultDistance b a) = true)).
Proof.
  split; [apply defaultDistance_sym_exact|].
  intros a b _ _ Horder.
  pose proof (defaultDistance_sym_same_order a b Horder) as Heq.
  split; [done|]. rewrite <-Heq. unfold PrimFloat.is_nan.
  by intros ->%negb_false_iff.
Qed.

(** ** A record against itself *)

Section SelfDistance.

Context {num : Type} `{!Number num} `{!ZeroLaws num}.

Implicit Types (key : string) (v : value num).

Lemma penalty_self (o : flat num) key :
  key ∈ Object_keys o →
  Forall is_scalar (Object_values o) →
  Forall finite_leaf (Object_values o) →
  penalty o o key = of_Z 0 ∧ compared o o key = true.
Proof.
  intros Hk%obj_get_elem Hs Hf.
  rewrite Forall_forall in Hs. rewrite Forall_forall in Hf.
  specialize (Hs _ Hk). specialize (Hf _ Hk).
  unfold penalty, compared.
  destruct (obj_get o key) as [| |b|n|s|props|elems]; try done.
  - simpl. by rewrite bool_decide_eq_true_2.
  - split; [|done]. cbn [is_undefined orb].
    by apply number_penalty_self.
  - simpl. by rewrite bool_decide_eq_true_2.
Qed.

Lemma fold_add_zero (l : list num) :
  Forall (λ p, p = of_Z 0) l → fold_left nadd l (of_Z 0) = of_Z 0.
Proof.
  induction 1 as [|p l -> _ IH]; [done|].
  cbn [fold_left]. by rewrite add_zero.
Qed.

(** C4.  A record whose flattening has at least one path (and
    fewer than [2^53] of them), no [undefined] leaf and no infinite number is
    at distance [0] from itself; a record whose flattening is empty is at
    distance [1] from itself.  This holds in binary64 as in exact
    arithmetic. *)
Theorem C4_self_distance (x : value num) :
  (getFlattenedObject x ≠ [] →
   Forall finite_leaf (Object_values (getFlattenedObject x)) →
   Z.of_nat (length (Object_keys (getFlattenedObject x))) < 2 ^ 53 →
   defaultDistance x x = of_Z 0)
  ∧ (getFlattenedObject x = [] → defaultDistance x x = of_Z 1).
Proof.
  split.
  - intros Hne Hfin Hsize. rewrite defaultDistance_formula.
    set (o := getFlattenedObject x) in *.
    set (allKeys := new_Set (Object_keys o ++ Object_keys o)).
    assert (∀ k, k ∈ allKeys →
              penalty o o k = of_Z 0 ∧ compared o o k = true) as Hself.
    { intros k Hk. unfold allKeys in Hk.
      rewrite elem_of_new_Set, elem_of_app in Hk.
      apply penalty_self; [|apply flattenObject_scalar|done].
      by destruct Hk. }
    assert (filter (λ k, compared o o k = true) allKeys = allKeys) as ->.
    { apply filter_all, Forall_forall. intros k Hk. by apply Hself. }
    assert (0 < length allKeys)%nat as Hkeys.
    { destruct allKeys eqn:Hnil; [|simpl; lia].
      apply new_Set_nil_inv in Hnil. by destruct o. }
    assert (length allKeys ≤ length (Object_keys o))%nat as Hle.
    { apply submseteq_length, NoDup_submseteq.
      - apply new_Set_NoDup.
      - intros k Hk. unfold allKeys in Hk.
        rewrite elem_of_new_Set, elem_of_app in Hk. by destruct Hk. }
    rewrite bool_decide_eq_true_2 by done.
    rewrite fold_add_zero.
    + apply zero_div_count; [done | lia].
    + apply Forall_fmap, Forall_forall. intros k Hk. by apply Hself.
  - intros Hnil. unfold defaultDistance. by rewrite Hnil.
Qed.

End SelfDistance.

(** ** Concrete inputs *)

(** C2.  [defaultDistance] returns the sum of the penalties of the paths of
    the union divided by the number of these paths, or [1] when no path is a
    valid comparison; but the result can leave the documented range
    [[0, 1]]: [defaultDistance({a: 1}, {a: -1})] is [2], the one path being a
    valid comparison of two numbers whose penalty
    [|1 - (-1)| / max(|1|, |-1|)] is [2]. *)
Theorem C2_distance_above_one :
  (∀ obj1 obj2 : value float,
     let flat1 := getFlattenedObject obj1 in
     let flat2 := getFlattenedObject obj2 in
     let allKeys := new_Set (Object_keys flat1 ++ Object_keys flat2) in
     defaultDistance obj1 obj2
     = if bool_decide
            (0 < length (filter (λ k, compared flat1 flat2 k = true) allKeys))%nat
       then ndiv (fold_left nadd (penalty flat1 flat2 <$> allKeys) (of_Z 0))
                 (of_nat (length allKeys))
       else of_Z 1)
  ∧ defaultDistance (Sample.just_a 1) (Sample.just_a (-1)) = (of_Z 2 : float)
  ∧ nltb (of_Z 1 : float)
      (defaultDistance (Sample.just_a 1) (Sample.just_a (-1))) = true
  ∧ nltb (of_Z 1 : exact)
      (defaultDistance (Sample.just_a 1) (Sample.just_a (-1))) = true.
Proof.
  split; [intros; apply defaultDistance_formula|].
  split; [reflexivity|]. split; [reflexivity | by vm_compute].
Qed.

(** C3.  [calculateCompleteness({})] divides [0] by [0]: the result is
    [NaN], not [0], and lies outside [[0, 1]]. *)
Theorem C3_completeness_of_empty_record :
  PrimFloat.is_nan (calculateCompleteness (Sample.empty_record : value float))
  = true
  ∧ calculateCompleteness (Sample.empty_record : value exact) = NaN.
Proof. split; reflexivity. Qed.

(** The empty record is at distance [1], not [0], from itself. *)
Lemma C4_counterexample :
  defaultDistance (Sample.empty_record : value float) Sample.empty_record
  = of_Z 1
  ∧ PrimFloat.eqb
      (defaultDistance (Sample.empty_record : value float) Sample.empty_record)
      (of_Z 0) = false.
Proof. split; reflexivity. Qed.

(** C4 on [{a: 7}]. *)
Lemma C4_self_distance_witness :
  defaultDistance (Sample.just_a 7 : value float) (Sample.just_a 7) = of_Z 0.
Proof.
  apply (C4_self_distance (Sample.just_a 7)).
  - discriminate.
  - repeat constructor. simpl. intros H.
    apply (f_equal (PrimFloat.eqb PrimFloat.infinity)) in H. discriminate.
  - simpl. lia.
Defined.

(** [{x: 10, y: 10, z: 10}] and [{y: 8, z: 7, x: 9}]: the penalties [0.1],
    [0.2] and [0.3] are added in the order [x, y, z] one way and in the
    order [y, z, x] the other way, and the two binary64 sums differ. *)
Lemma C9_counterexample :
  (* 0.20000000000000004 and 0.19999999999999998 *)
  defaultDistance Sample.tens Sample.nines = 0x1.999999999999bp-3%float
  ∧ defaultDistance Sample.nines Sample.tens = 0x1.9999999999999p-3%float
  ∧ PrimFloat.eqb (defaultDistance Sample.tens Sample.nines)
      (defaultDistance Sample.nines Sample.tens) = false.
Proof. repeat split; reflexivity. Qed.

(** C9 in binary64 on [{x: 10, y: 10, z: 10}] and [{x: 9, y: 8, z: 7}],
    which list the same three paths in the same order. *)
Lemma C9_symmetry_witness :
  defaultDistance Sample.tens Sample.sevens
  = defaultDistance Sample.sevens Sample.tens
  ∧ (PrimFloat.is_nan (defaultDistance Sample.tens Sample.sevens) = false →
     PrimFloat.eqb (defaultDistance Sample.tens Sample.sevens)
       (defaultDistance Sample.sevens Sample.tens) = true).
Proof.
  destruct C9_symmetry as [_ Hsame]. apply Hsame.
  - repeat constructor; discriminate.
  - repeat constructor; discriminate.
  - reflexivity.
Defined.

(** Two items, two examples wanted, a sample size of one: one element is
    returned.  And three items of which two are empty records, three
    examples wanted, completeness prioritised: the score of an empty record
    is [NaN], which does not exceed the initial [maxScore], and one element
    is returned. *)
Lemma C1_counterexample :
  validateOptions (Sample.options 2 (Some 1) None) = Return ()
  ∧ (selectDiverseExamples Sample.view [0; 1]%nat
       (Sample.options 2 (Some 1) None) []).1
    = Return [1%nat]
  ∧ validateOptions (Sample.prioritizing 3) = Return ()
  ∧ (selectDiverseExamples Sample.view Sample.sparse
       (Sample.prioritizing 3) []).1
    = Return [0%nat].
Proof. repeat split; reflexivity. Qed.

Lemma C1_exact_count_distinct_positions_witness :
  ∃ selected,
    (selectDiverseExamples Sample.view Sample.four
       (Sample.options 2 None None) []).1 = Return selected
    ∧ Z.of_nat (length selected) = 2
    ∧ selected ⊆+ Sample.four.
Proof.
  apply (C1_exact_count_distinct_positions Sample.view Sample.four
           (Sample.options 2 None None) []).
  - reflexivity.
  - simpl. lia.
  - vm_compute. discriminate.
  - intros a b c Ha Hb Hc. unfold Sample.four in *.
    repeat (apply elem_of_cons in Ha as [->|Ha]);
      try (by apply elem_of_nil in Ha);
    repeat (apply elem_of_cons in Hb as [->|Hb]);
      try (by apply elem_of_nil in Hb);
    repeat (apply elem_of_cons in Hc as [->|Hc]);
      try (by apply elem_of_nil in Hc);
    reflexivity.
Defined.

Lemma C10_negative_count_gives_one_witness :
  ∃ x, x ∈ Sample.four
       ∧ (selectDiverseExamples Sample.view Sample.four
            (Sample.options (-3) None None) []).1 = Return [x].
Proof.
  apply (C10_negative_count_gives_one Sample.view Sample.four
           (Sample.options (-3) None None) []).
  - discriminate.
  - simpl. lia.
  - reflexivity.
Defined.

(** The entries of [(a, b)] and of [(b, a)] are two entries: looking up the
    one and then the other evaluates the distance function twice; and in a
    run over a collection that holds one object at two positions, the pair of
    positions 0 and 1 is measured both as [(1, 0)] and as [(0, 1)]. *)
Lemma C5_counterexample :
  cache_key Sample.four 0%nat 1%nat = "0-1"
  ∧ cache_key Sample.four 1%nat 0%nat = "1-0"
  ∧ calls (getCachedDistance Sample.view Sample.four
             (Sample.options 2 None None) 1%nat 0%nat
             (getCachedDistance Sample.view Sample.four
                (Sample.options 2 None None) 0%nat 1%nat
                (mkRun [] ∅ [])).2).2
    = [(0, 1); (1, 0)]%nat
  ∧ calls (selectDiverseExamples Sample.view Sample.repeated
             (Sample.options 3 None None) []).2
    = [(1, 0); (0, 0); (0, 1)]%nat.
Proof. repeat split; reflexivity. Qed.

(** C5 on the four records of the tests, all different objects. *)
Lemma C5_each_ordered_pair_evaluated_once_witness :
  NoDup Sample.four
  ∧ NoDup (unordered_pair Sample.four
             <$> calls (selectDiverseExamples Sample.view Sample.four
                          (Sample.options 3 None None) []).2).
Proof.
  assert (NoDup Sample.four) as Hnd
    by (apply (bool_decide_unpack _); reflexivity).
  split; [done|].
  destruct (C5_each_ordered_pair_evaluated_once Sample.view Sample.four
              (Sample.options 3 None None) []) as (_ & _ & _ & _ & Hun).
  by apply Hun.
Defined.

(** C6.  [getRandomSample] shuffles by sorting with the comparator
    [() => 0.5 - Math.random()] and keeps the first [sampleSize] elements.
    The comparator does not look at the two elements it is given: whatever
    they are, its value is positive exactly when the draw is below one
    half.  It is therefore no consistent comparison on any collection that
    is not empty (it sorts an element after itself on a low draw), and the
    order of the result is left to the sort of the engine.  This is the
    random compare, not a Fisher-Yates shuffle. *)
Theorem C6_sample_sorts_with_a_random_compare {num : Type} `{!Number num}
    {T : Type} `{!EqDecision T} :
  (∀ (items : list T) (s : Z),
     getRandomSample (num := num) items s
     = bind (Array_sort random_compare items)
         (λ shuffled, ret (slice0 shuffled s)))
  ∧ (∀ (a b c d : T) (st : run num T),
       random_compare a b st = random_compare c d st)
  ∧ (∀ (a b : T) (r : N) (rs : list N) cache log,
       random_compare (num := num) a b (mkRun (r :: rs) cache log)
       = (bool_decide (r `mod` 2 ^ 53 < 2 ^ 52)%N, mkRun rs cache log))
  ∧ (∀ (gt : T → T → bool) (items : list T),
       items ≠ [] →
       ¬ (consistent_on gt items
          ∧ ∀ a b st, a ∈ items → b ∈ items →
              (random_compare (num := num) a b st).1 = gt a b)).
Proof.
  split; [done|]. split; [done|]. split; [done|].
  intros gt [|a items] Hne [(Hirrefl & _) Hgt]; [done|].
  assert (a ∈ a :: items) as Ha by by left.
  specialize (Hgt a a (mkRun [Sample.low] ∅ []) Ha Ha).
  rewrite (Hirrefl a Ha) in Hgt. discriminate Hgt.
Qed.

(** * Further lemmas *)

(** ** Flattening *)

Section Flattening.

Context {num : Type} `{!Number num}.

Implicit Types (key prefix : string) (v : value num) (o acc : flat num).
Implicit Types (props : list (string * value num)).

Lemma obj_get_missing o key : key ∉ Object_keys o → obj_get o key = VUndefined.
Proof.
  unfold Object_keys. induction o as [|[k v] o IH]; simpl; [done|].
  intros Hk. case_decide.
  - destruct Hk. subst. by left.
  - apply IH. intros ?. apply Hk. by right.
Qed.

Lemma obj_set_fresh o key v :
  key ∉ Object_keys o → obj_set o key v = o ++ [(key, v)].
Proof.
  unfold Object_keys. induction o as [|[k w] o IH]; simpl; [done|].
  intros Hk. case_decide.
  - destruct Hk. subst. by left.
  - f_equal. apply IH. intros ?. apply Hk. by right.
Qed.

Lemma flatten_scalars_from props acc :
  NoDup (Object_keys acc ++ props.*1) →
  Forall is_scalar props.*2 →
  (fix reduce (ps : list (string * value num)) (acc : flat num) : flat num :=
     match ps with
     | [] => acc
     | (key, v) :: ps' =>
         reduce ps'
           (if is_object v
            then Object_assign acc (flattenObject v (fullKey "" key))
            else obj_set acc (fullKey "" key) v)
     end) props acc = acc ++ props.
Proof.
  revert acc. induction props as [|[key v] props IH]; intros acc Hnd Hs.
  - by rewrite app_nil_r.
  - simpl in Hnd, Hs. inversion_clear Hs as [|?? Hv Hs'].
    unfold is_scalar in Hv. rewrite Hv. simpl.
    apply NoDup_app in Hnd as (Hacc & Hdisj & Hps).
    rewrite obj_set_fresh by (intros Hk; apply (Hdisj _ Hk); by left).
    rewrite IH; [by rewrite <-app_assoc|..|done].
    unfold Object_keys. rewrite fmap_app. simpl. rewrite <-app_assoc. simpl.
    apply NoDup_app. split; [done|]. split; [done|]. done.
Qed.

Lemma getFlattenedObject_flat props :
  NoDup props.*1 → Forall is_scalar props.*2 →
  getFlattenedObject (VObj props) = props.
Proof.
  intros Hnd Hs. unfold getFlattenedObject. simpl.
  by rewrite flatten_scalars_from.
Qed.

Lemma obj_set_keys (P : string → Prop) o key v :
  Forall P (Object_keys o) → P key → Forall P (Object_keys (obj_set o key v)).
Proof.
  unfold Object_keys. intros Ho Hk.
  induction o as [|[k w] o IH]; simpl.
  - by repeat constructor.
  - inversion_clear Ho. case_decide; simpl; constructor; auto.
Qed.

Lemma Object_assign_keys (P : string → Prop) (target source : flat num) :
  Forall P (Object_keys target) → Forall P (Object_keys source) →
  Forall P (Object_keys (Object_assign target source)).
Proof.
  unfold Object_assign. revert target.
  induction source as [|[k v] source IH]; intros target Ht Hs; simpl; [done|].
  unfold Object_keys in Hs. simpl in Hs. inversion_clear Hs.
  apply IH; [|done]. by apply obj_set_keys.
Qed.

Lemma fullKey_nonempty prefix key :
  prefix ≠ "" → fullKey prefix key = prefix +:+ "." +:+ key.
Proof. by destruct prefix. Qed.

Lemma string_app_assoc (s t u : string) : (s +:+ t) +:+ u = s +:+ (t +:+ u).
Proof.
  induction s as [|c s IH]; [done|].
  change (String c ((s +:+ t) +:+ u) = String c (s +:+ t +:+ u)).
  by rewrite IH.
Qed.

Lemma app_nonempty (s t : string) : s ≠ "" → s +:+ t ≠ "".
Proof. by destruct s. Qed.

Lemma flattenObject_prefix :
  ∀ (obj : value num) prefix,
    prefix ≠ "" →
    Forall (λ key, ∃ rest, key = prefix +:+ "." +:+ rest)
      (Object_keys (flattenObject obj prefix)).
Proof.
  fix flattenObject_prefix 1. intros obj prefix Hp.
  set (P := λ key : string, ∃ rest, key = prefix +:+ "." +:+ rest).
  assert (∀ key v, Forall P (Object_keys (flattenObject v (fullKey prefix key))))
    as Hnested.
  { intros key v. rewrite fullKey_nonempty by done.
    eapply Forall_impl; [apply flattenObject_prefix; by apply app_nonempty|].
    intros k [rest ->]. exists (key +:+ "." +:+ rest).
    by rewrite !string_app_assoc. }
  assert (∀ key, P (fullKey prefix key)) as Hleaf.
  { intros key. rewrite fullKey_nonempty by done. by exists key. }
  destruct obj as [| | | | |props|elems]; simpl; try by constructor.
  - assert (Forall P (Object_keys ([] : flat num))) as Hacc by constructor.
    revert Hacc. generalize ([] : flat num).
    induction props as [|[key v] props IH]; intros acc Hacc; [done|].
    apply IH. destruct (is_object v).
    + by apply Object_assign_keys.
    + by apply obj_set_keys.
  - assert (Forall P (Object_keys ([] : flat num))) as Hacc by constructor.
    revert Hacc. generalize ([] : flat num). generalize 0%nat.
    induction elems as [|v elems IH]; intros i acc Hacc; [done|].
    apply IH. destruct (is_object v).
    + by apply Object_assign_keys.
    + by apply obj_set_keys.
Qed.

End Flattening.

(** ** Quotients in exact arithmetic *)

Section ExactQuotients.

Local Open Scope Qc_scope.

Implicit Types (a b m p q : Qc).

Lemma Qc_pos_ne_0 m : 0 < m → m ≠ 0.
Proof. intros Hm ->. by apply (irreflexivity Qclt 0). Qed.

Lemma Qc_div_le_iff a m b : 0 < m → a / m ≤ b ↔ a ≤ b * m.
Proof.
  intros Hm. rewrite (Qcmult_le_mono_pos_r _ _ m Hm).
  by rewrite test_field by by apply Qc_pos_ne_0.
Qed.

Lemma Qc_le_div_iff a m b : 0 < m → b ≤ a / m ↔ b * m ≤ a.
Proof.
  intros Hm. rewrite (Qcmult_le_mono_pos_r _ _ m Hm).
  by rewrite test_field by by apply Qc_pos_ne_0.
Qed.

Lemma Qc_div_eq_iff a m b : 0 < m → a / m = b ↔ a = b * m.
Proof.
  intros Hm. pose proof (Qc_pos_ne_0 m Hm). split.
  - intros <-. by rewrite test_field.
  - intros ->. by apply Qcdiv_mult_l.
Qed.

(** The quotient of two counts, the first not above the second. *)
Lemma exact_div_counts (d n : nat) :
  (0 < n)%nat → (d ≤ n)%nat →
  ∃ q, ndiv (of_nat d : exact) (of_nat n) = Fin q
       ∧ 0 ≤ q ≤ 1 ∧ (q = 1 ↔ d = n) ∧ (q = 0 ↔ d = 0%nat).
Proof.
  intros Hn Hd.
  assert (0 < Qc_of_Z (Z.of_nat n)) as Hpos.
  { rewrite <-Z2Qc_inj_0. apply (proj1 (Z2Qc_inj_lt _ _)). lia. }
  exists (Qc_of_Z (Z.of_nat d) / Qc_of_Z (Z.of_nat n)). split.
  { unfold of_nat. simpl.
    by rewrite bool_decide_eq_false_2 by by apply Qc_pos_ne_0. }
  split; [split|split].
  - apply Qc_le_div_iff; [done|]. replace (0 * _) with 0 by ring.
    rewrite <-Z2Qc_inj_0. apply (proj1 (Z2Qc_inj_le _ _)). lia.
  - apply Qc_div_le_iff; [done|]. replace (1 * Qc_of_Z (Z.of_nat n))
      with (Qc_of_Z (Z.of_nat n)) by ring.
    apply (proj1 (Z2Qc_inj_le _ _)). lia.
  - rewrite Qc_div_eq_iff by done.
    replace (1 * Qc_of_Z (Z.of_nat n)) with (Qc_of_Z (Z.of_nat n)) by ring.
    rewrite Z2Qc_inj_iff. lia.
  - rewrite Qc_div_eq_iff by done. replace (0 * _) with 0 by ring.
    rewrite <-Z2Qc_inj_0, Z2Qc_inj_iff. lia.
Qed.

End ExactQuotients.

(** ** Completeness in exact arithmetic *)

Section Completeness.

Context {num : Type} `{!Number num}.

Lemma length_Object_keys (o : flat num) : length (Object_keys o) = length o.
Proof. unfold Object_keys. by rewrite length_fmap. Qed.

Lemma length_Object_values (o : flat num) :
  length (Object_values o) = length o.
Proof. unfold Object_values. by rewrite length_fmap. Qed.

End Completeness.

(** The completeness of a record with at least one flattened path, in exact
    arithmetic. *)
Lemma completeness_exact_range (obj : value exact) :
  getFlattenedObject obj ≠ [] →
  ∃ q : Qc, calculateCompleteness obj = Fin q
    ∧ (0 ≤ q ≤ 1)%Qc
    ∧ (q = 1%Qc ↔ Forall (λ v, is_defined v = true)
                     (Object_values (getFlattenedObject obj)))
    ∧ (q = 0%Qc ↔ Forall (λ v, is_defined v = false)
                     (Object_values (getFlattenedObject obj))).
Proof.
  intros Hne. unfold calculateCompleteness.
  set (o := getFlattenedObject obj) in *.
  set (vs := Object_values o).
  pose proof (filter_length_le is_defined vs) as Hle.
  assert (length vs = length (Object_keys o)) as Hlen
    by (unfold vs; by rewrite length_Object_keys, length_Object_values).
  destruct (exact_div_counts (length (List.filter is_defined vs))
              (length (Object_keys o))) as (q & Hq & Hrange & Hone & Hzero).
  { rewrite length_Object_keys. destruct o; [done | simpl; lia]. }
  { lia. }
  exists q. split; [done|]. split; [done|]. split.
  - rewrite Hone, <-Hlen. clear.
    induction vs as [|v vs IH]; simpl; [by split|].
    pose proof (filter_length_le is_defined vs).
    destruct (is_defined v) eqn:Hv; simpl.
    + rewrite Forall_cons. split; [intros [= ?]; tauto|]. intros [_ ?].
      f_equal. tauto.
    + split; [lia|]. intros [? _]%Forall_cons. congruence.
  - rewrite Hzero. clear.
    induction vs as [|v vs IH]; simpl; [by split|].
    destruct (is_defined v) eqn:Hv; simpl.
    + split; [done|]. intros [? _]%Forall_cons. congruence.
    + rewrite Forall_cons. tauto.
Qed.

(** ** Range of the default distance *)

Lemma filter_none {A : Type} (P : A → Prop) `{!∀ x, Decision (P x)}
    (l : list A) :
  Forall (λ x, ¬ P x) l → filter P l = [].
Proof.
  induction 1 as [|x l Hx _ IH]; [done|].
  by rewrite filter_cons_False.
Qed.

Section Disjoint.

Context {num : Type} `{!Number num}.

Lemma defaultDistance_disjoint (obj1 obj2 : value num) :
  (∀ key, key ∈ Object_keys (getFlattenedObject obj1) →
          key ∉ Object_keys (getFlattenedObject obj2)) →
  defaultDistance obj1 obj2 = of_Z 1.
Proof.
  intros Hdisj. rewrite defaultDistance_formula.
  rewrite filter_none; [done|].
  apply Forall_forall. intros key _. unfold compared.
  destruct (decide (key ∈ Object_keys (getFlattenedObject obj1))) as [Hk|Hk].
  - rewrite (obj_get_missing (getFlattenedObject obj2)) by auto.
    by rewrite orb_true_r.
  - by rewrite (obj_get_missing (getFlattenedObject obj1)).
Qed.

End Disjoint.




(** ** Samplers *)

Section Samplers.

Context {num : Type} `{!Number num}.
Context {T : Type} `{!EqDecision T}.

Implicit Types (items : list T) (st : run num T).

Lemma same_memory_free st : entropy_free (same_memory st).
Proof. intros e e' c l H. exact H. Qed.

Lemma Math_random_entropy st :
  entropy (Math_random st).2 = drop 1 (entropy st).
Proof. destruct st as [[|r rs] c l]; by unfold Math_random. Qed.

Lemma reservoir_loop_entropy (s : Z) (rest : list T) (i : nat)
    (reservoir : list T) st :
  entropy (reservoir_loop s rest i reservoir st).2
  = drop (length rest) (entropy st).
Proof.
  revert i reservoir st.
  induction rest as [|x rest IH]; intros i reservoir st; [done|].
  cbn [reservoir_loop]. unfold bind at 1, random_index, bind, ret.
  pose proof (Math_random_entropy st) as Hst.
  destruct (Math_random st) as [r st']. simpl in Hst.
  rewrite IH, Hst, drop_drop. done.
Qed.

Lemma reservoirSample_spec items (s : Z) st :
  0 ≤ s →
  let r := reservoirSample items s st in
  r.1 ⊆+ items
  ∧ length r.1 = Z.to_nat (Z.min s (Z.of_nat (length items)))
  ∧ entropy r.2 = drop (length items - Z.to_nat s) (entropy st)
  ∧ distanceCache r.2 = distanceCache st ∧ calls r.2 = calls st.
Proof.
  intros Hs r.
  destruct (hoare_reservoirSample (same_memory st) (same_memory_free st)
              items s Hs st) as [[Hc Hl] [Hsub Hlen]]; [done|].
  split; [done|]. split; [done|]. split; [|done].
  unfold r, reservoirSample. by rewrite reservoir_loop_entropy, length_drop.
Qed.

Lemma getRandomSample_spec items (s : Z) st :
  0 ≤ s →
  let r := getRandomSample items s st in
  (∃ shuffled, shuffled ≡ₚ items ∧ r.1 = take (Z.to_nat s) shuffled)
  ∧ distanceCache r.2 = distanceCache st ∧ calls r.2 = calls st.
Proof.
  intros Hs r. unfold r, getRandomSample, bind, ret.
  destruct (hoare_Array_sort (same_memory st) random_compare) with
    (l := items) (st := st) as [HJ Hp]; [|done|].
  { intros a b. apply hoare_random_compare, same_memory_free. }
  destruct (Array_sort random_compare items st) as [shuffled st'].
  simpl in *. split; [|done]. exists shuffled. split; [done|].
  by apply slice0_take.
Qed.

Lemma getEfficientSample_spec items (s : Z) st :
  0 ≤ s →
  let r := getEfficientSample items s st in
  r.1 ⊆+ items
  ∧ length r.1 = Z.to_nat (Z.min s (Z.of_nat (length items)))
  ∧ distanceCache r.2 = distanceCache st ∧ calls r.2 = calls st.
Proof.
  intros Hs r.
  destruct (hoare_getEfficientSample (same_memory st) (same_memory_free st)
              items s Hs st) as [[Hc Hl] [Hsub Hlen]]; [done|].
  done.
Qed.

End Samplers.

(** ** The pieces of a run *)

Section Working.

Context {num : Type} `{!Number num}.
Context {T : Type} `{!EqDecision T}.
Variable view : T → value num.
Variable items : list T.
Variable options : SelectorOptions num T.

Implicit Types (st : run num T) (selected remainingItems : list T).

Local Abbreviation working_set := (working_set items options).

(** A run that passes validation and the guards on the count is the
    sampling, the first pick and the loop. *)
Lemma selectDiverseExamples_body_run st :
  validateOptions options = Return () →
  items ≠ [] → numExamples options ≠ 0 →
  numExamples options ≤ Z.of_nat (length items) →
  selectDiverseExamples_body view items options st
  = let s := working_set st in
    let p := first_pick view options s.1 s.2 in
    let r := select_loop view items options (length p.1.2)
               (option_list p.1.1) p.1.2 p.2 in
    (Return r.1, r.2).
Proof.
  intros Hv Hne Hn Hle. unfold selectDiverseExamples_body. rewrite Hv.
  rewrite (bool_decide_eq_false_2 (length items = 0%nat))
    by (by destruct items).
  rewrite (bool_decide_eq_false_2 _ Hn). simpl.
  rewrite (bool_decide_eq_false_2 (Z.of_nat (length items) < _)) by lia.
  unfold bind, ret, working_set.
  destruct (if bool_decide _ then _ else _) as [sampled st1]. simpl.
  destruct (first_pick view options sampled st1) as [[first rest] st2]. simpl.
  by destruct (select_loop _ _ _ _ _ _ _).
Qed.

(** The other runs return at once. *)
Lemma selectDiverseExamples_body_stop st :
  validateOptions options ≠ Return () ∨ items = [] ∨ numExamples options = 0
  ∨ Z.of_nat (length items) < numExamples options →
  (selectDiverseExamples_body view items options st).2 = st
  ∧ ∀ st', (selectDiverseExamples_body view items options st').1
           = (selectDiverseExamples_body view items options st).1.
Proof.
  unfold selectDiverseExamples_body.
  destruct (validateOptions options) as [[]|e]; [|done].
  intros [?|Hstop]; [done|].
  destruct (bool_decide (length items = 0%nat)
            || bool_decide (numExamples options = 0)) eqn:Hguard; [done|].
  apply orb_false_elim in Hguard as
      [Hne%bool_decide_eq_false Hn%bool_decide_eq_false].
  destruct Hstop as [->|[?|Hlt]]; [done|done|].
  by rewrite (bool_decide_eq_true_2 _ Hlt).
Qed.

Lemma run_or_stop :
  validateOptions options = Return () ∧ items ≠ []
  ∧ numExamples options ≠ 0
  ∧ numExamples options ≤ Z.of_nat (length items)
  ∨ (validateOptions options ≠ Return () ∨ items = []
     ∨ numExamples options = 0
     ∨ Z.of_nat (length items) < numExamples options).
Proof.
  destruct (validateOptions options) as [[]|e]; [|right; by left].
  destruct items as [|x l]; [right; auto|].
  destruct (decide (numExamples options = 0)); [right; auto|].
  destruct (decide (numExamples options ≤ Z.of_nat (length (x :: l))));
    [left; done|].
  right. right. right. right. lia.
Qed.

Lemma working_set_spec st :
  validateOptions options = Return () → items ≠ [] →
  let s := working_set st in
  s.1 ⊆+ items ∧ s.1 ≠ []
  ∧ length s.1 = Z.to_nat (Z.min (the_sampleSize items options)
                              (Z.of_nat (length items)))
  ∧ (Z.of_nat (length items) ≤ the_sampleSize items options → s = (items, st))
  ∧ distanceCache s.2 = distanceCache st ∧ calls s.2 = calls st.
Proof.
  intros Hv Hne. pose proof (the_sampleSize_pos items options Hv Hne) as Hs.
  unfold working_set. case_bool_decide as Hlt; simpl.
  - destruct (getEfficientSample_spec items (the_sampleSize items options) st)
      as (Hsub & Hlen & Hmem); [lia|].
    split; [done|]. split; [|split; [done|split; [lia|done]]].
    intros Hnil. rewrite Hnil in Hlen. simpl in Hlen. lia.
  - split; [done|]. split; [done|]. split; [lia|]. done.
Qed.

Lemma hoare_working_set (J : run num T → Prop) :
  entropy_free J →
  validateOptions options = Return () → items ≠ [] →
  hoare J working_set (λ working, working ⊆+ items ∧ working ≠ []).
Proof.
  intros Hfree Hv Hne.
  pose proof (the_sampleSize_pos items options Hv Hne) as Hs.
  unfold working_set. case_bool_decide.
  - eapply hoare_weaken; [apply hoare_getEfficientSample; (done || lia)|].
    intros sampled [Hsub Hlen]. split; [done|]. intros ->. simpl in Hlen.
    destruct items; [done|]. simpl in Hlen. lia.
  - by apply hoare_ret.
Qed.

Lemma select_loop_extends (fuel : nat) selected remainingItems st :
  let r := select_loop view items options fuel selected remainingItems st in
  (∃ more, r.1 = selected ++ more)
  ∧ Z.of_nat (length r.1)
    ≤ Z.max (Z.of_nat (length selected)) (numExamples options).
Proof.
  revert selected remainingItems st.
  induction fuel as [|fuel IH]; intros selected remainingItems st; simpl.
  { split; [exists []; by rewrite app_nil_r | lia]. }
  destruct (bool_decide (Z.of_nat (length selected) < numExamples options)
            && bool_decide (0 < length remainingItems)%nat) eqn:Hguard.
  2: { split; [exists []; by rewrite app_nil_r | simpl; lia]. }
  apply andb_true_iff in Hguard as [Hlt%bool_decide_eq_true _].
  unfold bind.
  destruct (scan _ _ _ _ _ _ _ _) as [[maxScore [[bestItem bestIndex]|]] st'];
    simpl.
  2: { split; [exists []; by rewrite app_nil_r | lia]. }
  destruct (IH (selected ++ [bestItem])
              (splice1 remainingItems (Z.of_nat bestIndex)) st')
    as [[more Hmore] Hlen].
  split.
  - exists (bestItem :: more). by rewrite Hmore, <-app_assoc.
  - rewrite length_app in Hlen. simpl in Hlen. lia.
Qed.

End Working.

(** ** The cache *)

Section Memory.

Context {num : Type} `{!Number num}.
Context {T : Type} `{!EqDecision T}.
Variable view : T → value num.
Variable items : list T.
Variable options : SelectorOptions num T.

Implicit Types (st : run num T) (selected remainingItems : list T).

Local Abbreviation cache_sound := (cache_sound view items options).

Lemma hoare_body_invariant (J : run num T → Prop) :
  entropy_free J →
  (∀ a b, a ∈ items → b ∈ items →
     hoare J (getCachedDistance view items options a b) (λ _, True)) →
  hoare J (selectDiverseExamples_body view items options) (λ _, True).
Proof.
  intros Hfree Hcached.
  destruct (run_or_stop items options) as [(Hv & Hne & Hn & Hle)|Hstop].
  - eapply hoare_weaken; [|done].
    by apply (hoare_select_main view items options J (λ _, True)).
  - intros st HJ.
    by destruct (selectDiverseExamples_body_stop view items options st Hstop)
      as [-> _].
Qed.

Lemma hoare_getCachedDistance_sound (a b : T) :
  a ∈ items → b ∈ items →
  hoare cache_sound (getCachedDistance view items options a b)
    (λ d, d = the_distanceFunction view options a b).
Proof.
  intros Ha Hb st Hst. unfold getCachedDistance.
  destruct (distanceCache st !! cache_key items a b) as [d|] eqn:Hk; simpl.
  { split; [done|]. by eapply Hst. }
  split; [|done]. intros a' b' d' Ha' Hb'. simpl.
  rewrite lookup_insert. case_decide as Hkey.
  - apply cache_key_inj in Hkey as [-> ->]; try done. by intros [= <-].
  - by apply Hst.
Qed.

Lemma cache_sound_run (rng : list N) :
  cache_sound (selectDiverseExamples view items options rng).2.
Proof.
  apply (hoare_body_invariant cache_sound).
  - intros e e' c l HJ. exact HJ.
  - intros a b Ha Hb. eapply hoare_weaken;
      [by apply hoare_getCachedDistance_sound | done].
  - intros a b d _ _. simpl. by rewrite lookup_empty.
Qed.

End Memory.

Section Shape.

Context {num : Type} `{!Number num}.
Context {T : Type} `{!EqDecision T}.
Variable view : T → value num.
Variable items : list T.
Variable options : SelectorOptions num T.

Implicit Types (st : run num T) (selected remainingItems : list T).

Lemma hoare_True {A : Type} (m : State num T A) :
  hoare (λ _, True) m (λ _, True).
Proof. by intros st _. Qed.

(** The pieces of a run that passes validation and the guards on the
    count. *)
Lemma select_run_shape st :
  validateOptions options = Return () →
  items ≠ [] → numExamples options ≠ 0 →
  numExamples options ≤ Z.of_nat (length items) →
  ∃ working st1 x remainingItems st2 more rest,
    working_set items options st = (working, st1)
    ∧ first_pick view options working st1 = ((Some x, remainingItems), st2)
    ∧ x :: remainingItems ≡ₚ working
    ∧ select_loop view items options (length remainingItems) [x]
        remainingItems st2
      = (x :: more,
         (selectDiverseExamples_body view items options st).2)
    ∧ (selectDiverseExamples_body view items options st).1
      = Return (x :: more)
    ∧ more ++ rest ≡ₚ remainingItems
    ∧ Z.of_nat (length (x :: more)) ≤ Z.max 1 (numExamples options)
    ∧ ∀ J : run num T → Prop, entropy_free J → J st → J st2.
Proof.
  intros Hv Hne Hn Hle.
  rewrite (selectDiverseExamples_body_run view items options st) by done.
  destruct (working_set_spec items options st Hv Hne) as (Hsub & Hnil & _).
  pose proof (λ J Hfree, hoare_working_set items options J Hfree Hv Hne st)
    as Hkeep1.
  destruct (working_set items options st) as [working st1]. simpl in *.
  assert (entropy_free (λ _ : run num T, True)) as Hfree by done.
  destruct (hoare_first_pick view options (λ _, True) Hfree working Hnil st1 I)
    as [_ (x & Hx & Hperm)].
  pose proof (λ J Hfree, hoare_first_pick view options J Hfree working Hnil st1)
    as Hkeep2.
  destruct (first_pick view options working st1)
    as [[first remainingItems] st2] eqn:Hpick. simpl in *. subst first.
  exists working, st1, x, remainingItems, st2. simpl.
  destruct (hoare_select_loop view items options (λ _, True) (λ _, True)
              Hfree (λ a b _ _, hoare_True _) (length remainingItems) [x]
              remainingItems) with (st := st2)
    as [_ ((rest & Hrest) & _)]; [|done|done|].
  { intros y Hy. simpl in Hy. rewrite Hperm in Hy.
    by eapply elem_of_submseteq. }
  destruct (select_loop_extends view items options (length remainingItems)
              [x] remainingItems st2) as [[more Hmore] Hlen].
  destruct (select_loop view items options (length remainingItems) [x]
              remainingItems st2) as [res st3]. simpl in *. subst res.
  exists more, rest. split; [done|]. split; [done|]. split; [done|].
  split; [done|]. split; [done|].
  split; [by apply Permutation_cons_inv in Hrest|].
  split; [simpl in *; lia|].
  intros J HJfree HJ. apply (Hkeep2 J HJfree). by apply (Hkeep1 J HJfree).
Qed.

End Shape.

(** ** The calls *)

Section Calls.

Context {num : Type} `{!Number num}.
Context {T : Type} `{!EqDecision T}.
Variable view : T → value num.
Variable items : list T.
Variable options : SelectorOptions num T.

Implicit Types (st : run num T) (selected remainingItems : list T).

Lemma hoare_scan_within selected (rest : list T) (i : nat) (b : best) :
  (∀ x, x ∈ rest → x ∈ items) →
  hoare (calls_within items selected)
    (scan view items options selected rest i b) (λ _, True).
Proof.
  revert i b. induction rest as [|item rest IH]; intros i b Hrest; simpl.
  - by apply hoare_ret.
  - eapply hoare_bind.
    { apply (hoare_mapM _ _ _ (λ _, True)). intros s Hs st Hst.
      unfold getCachedDistance.
      destruct (distanceCache st !! _); simpl; [done|].
      split; [|done]. intros x y. simpl.
      rewrite elem_of_app, list_elem_of_singleton.
      intros [Hin|[= -> ->]]; [by apply Hst|].
      split; [apply Hrest; by left | done]. }
    intros ds _. apply IH. intros x Hx. apply Hrest. by right.
Qed.

Lemma select_loop_within (fuel : nat) selected remainingItems st :
  (∀ x, x ∈ remainingItems → x ∈ items) →
  calls_within items selected st →
  let r := select_loop view items options fuel selected remainingItems st in
  calls_within items r.1 r.2.
Proof.
  revert selected remainingItems st.
  induction fuel as [|fuel IH]; intros selected remainingItems st Hin Hst;
    simpl; [done|].
  destruct (_ && _); [|done].
  unfold bind.
  destruct (hoare_scan_within selected remainingItems 0 (of_Z (-1), None) Hin
              st Hst) as [Hst' _].
  destruct (scan view items options selected remainingItems 0
              (of_Z (-1), None) st)
    as [[maxScore [[bestItem bestIndex]|]] st']; simpl in *; [|done].
  rewrite splice1_delete. apply IH.
  - intros x Hx%list_elem_of_delete_inv. by apply Hin.
  - intros x y Hxy. destruct (Hst' x y Hxy). split; [done|].
    apply elem_of_app. by left.
Qed.

(** The calls of a run: each measures a record of the collection against a
    record of the result, and none is made twice. *)
Lemma select_calls_within (rng : list N) :
  let r := selectDiverseExamples view items options rng in
  match r.1 with
  | Return selected =>
      calls_within items selected r.2
      ∧ (length (calls r.2) ≤ length items * length selected)%nat
  | Throw _ => calls r.2 = []
  end.
Proof.
  intros r. subst r. unfold selectDiverseExamples.
  set (st0 := mkRun rng ∅ []).
  assert (∀ selected, calls_within items selected st0) as Hst0.
  { intros selected x y. by intros ?%elem_of_nil. }
  destruct (run_or_stop items options) as [(Hv & Hne & Hn & Hle)|Hstop].
  2: { destruct (selectDiverseExamples_body_stop view items options st0 Hstop)
         as [-> _].
       destruct (selectDiverseExamples_body view items options st0).1;
         [|done].
       split; [apply Hst0|]. simpl. lia. }
  destruct (select_run_shape view items options st0 Hv Hne Hn Hle)
    as (working & st1 & x & remainingItems & st2 & more & rest
        & Hwork & Hpick & Hperm & Hloop & -> & Hrest & Hlen).
  destruct (working_set_spec items options st0 Hv Hne)
    as (Hsub & _ & _ & _ & _ & Hcalls).
  rewrite Hwork in Hsub, Hcalls. simpl in Hsub, Hcalls.
  assert (calls st2 = []) as Hcalls2.
  { assert (entropy_free (λ st : run num T, calls st = [])) as Hfree
      by (intros ???? HJ; exact HJ).
    destruct (hoare_first_pick view options _ Hfree working) with (st := st1)
      as [HJ _]; [|done|by rewrite Hpick in HJ].
    intros ->. symmetry in Hperm. by apply Permutation_nil_cons in Hperm. }
  pose proof (select_loop_within (length remainingItems) [x] remainingItems st2)
    as Hwithin.
  rewrite Hloop in Hwithin. simpl in Hwithin.
  assert (calls_within items (x :: more)
            (selectDiverseExamples_body view items options st0).2) as Hw.
  { apply Hwithin.
    - intros y Hy. eapply elem_of_submseteq; [|exact Hsub].
      rewrite <-Hperm. by right.
    - intros a b. rewrite Hcalls2. by intros ?%elem_of_nil. }
  split; [done|].
  destruct (select_cache_matches_calls view items options rng)
    as (_ & _ & Hnd).
  unfold selectDiverseExamples in Hnd. fold st0 in Hnd.
  rewrite <-(length_prod items (x :: more)).
  apply submseteq_length, NoDup_submseteq; [done|].
  intros [a b] Hab. rewrite <-list_cprod_list_prod.
  apply list_elem_of_cprod. by apply Hw.
Qed.

End Calls.

(** ** Steps that leave the entropy alone *)

Section Blind.

Context {num : Type} `{!Number num}.
Context {T : Type} `{!EqDecision T}.
Variable view : T → value num.
Variable items : list T.
Variable options : SelectorOptions num T.

Implicit Types (st : run num T) (selected remainingItems : list T).

Lemma blind_ret {A : Type} (a : A) :
  entropy_blind (ret a : State num T A).
Proof. done. Qed.

Lemma blind_bind {A B : Type} (m : State num T A) (k : A → State num T B) :
  entropy_blind m → (∀ a, entropy_blind (k a)) → entropy_blind (bind m k).
Proof.
  intros Hm Hk st e. unfold bind. rewrite Hm.
  destruct (m st) as [a st']. simpl. apply Hk.
Qed.

Lemma blind_mapM {A B : Type} (f : A → State num T B) (l : list A) :
  (∀ x, entropy_blind (f x)) → entropy_blind (mapM f l).
Proof.
  intros Hf. induction l as [|x l IH]; simpl; [apply blind_ret|].
  apply blind_bind; [done|]. intros y.
  apply blind_bind; [done|]. intros ys. apply blind_ret.
Qed.

Lemma blind_getCachedDistance (a b : T) :
  entropy_blind (getCachedDistance view items options a b).
Proof.
  intros st e. unfold getCachedDistance. simpl.
  by destruct (distanceCache st !! _).
Qed.

Lemma blind_scan selected (rest : list T) (i : nat) (b : best) :
  entropy_blind (scan view items options selected rest i b).
Proof.
  revert i b. induction rest as [|item rest IH]; intros i b; simpl.
  - apply blind_ret.
  - apply blind_bind; [|intros ds; apply IH].
    apply blind_mapM. intros s. apply blind_getCachedDistance.
Qed.

Lemma blind_select_loop (fuel : nat) selected remainingItems :
  entropy_blind (select_loop view items options fuel selected remainingItems).
Proof.
  revert selected remainingItems.
  induction fuel as [|fuel IH]; intros selected remainingItems; simpl.
  - apply blind_ret.
  - destruct (_ && _); [|apply blind_ret].
    apply blind_bind; [apply blind_scan|].
    intros [maxScore [[bestItem bestIndex]|]]; simpl;
      [apply IH | apply blind_ret].
Qed.

Lemma blind_sort_insert (after : T → T → State num T bool) (x : T)
    (l : list T) :
  (∀ a b, entropy_blind (after a b)) → entropy_blind (sort_insert after x l).
Proof.
  intros Hafter. induction l as [|y l IH]; simpl; [apply blind_ret|].
  apply blind_bind; [done|]. intros [|]; [|apply blind_ret].
  apply blind_bind; [done|]. intros r. apply blind_ret.
Qed.

Lemma blind_Array_sort (after : T → T → State num T bool) (l : list T) :
  (∀ a b, entropy_blind (after a b)) → entropy_blind (Array_sort after l).
Proof.
  intros Hafter. induction l as [|x l IH]; simpl; [apply blind_ret|].
  apply blind_bind; [done|]. intros sorted. by apply blind_sort_insert.
Qed.

Lemma blind_first_pick remainingItems :
  the_prioritizeComplete options = true →
  entropy_blind (first_pick view options remainingItems).
Proof.
  intros Hp. unfold first_pick. rewrite Hp.
  apply blind_bind.
  - apply blind_Array_sort. intros a b. apply blind_ret.
  - intros sorted. destruct (sorted !! 0%nat); apply blind_ret.
Qed.

(** With [prioritizeComplete] and a collection that is not sampled, a run
    does not depend on the random draws. *)
Lemma select_blind (rng rng' : list N) :
  the_prioritizeComplete options = true →
  Z.of_nat (length items) ≤ the_sampleSize items options →
  (selectDiverseExamples view items options rng).1
  = (selectDiverseExamples view items options rng').1.
Proof.
  intros Hp Hsize. unfold selectDiverseExamples.
  set (st := mkRun rng ∅ []).
  change (mkRun rng' ∅ []) with (with_entropy rng' st).
  destruct (run_or_stop items options) as [(Hv & Hne & Hn & Hle)|Hstop].
  2: { destruct (selectDiverseExamples_body_stop view items options st
                   Hstop) as [_ Heq]. symmetry. apply Heq. }
  rewrite !(selectDiverseExamples_body_run view items options) by done.
  unfold working_set. rewrite bool_decide_eq_false_2 by lia.
  cbn [ret fst snd]. cbv zeta.
  rewrite (blind_first_pick items Hp st rng').
  destruct (first_pick view options items st) as [[first rest] st2]. simpl.
  by rewrite (blind_select_loop _ _ _ st2 rng').
Qed.

Lemma blind_entropy {A : Type} (m : State num T A) st :
  entropy_blind m → entropy (m st).2 = entropy st.
Proof.
  intros Hm. specialize (Hm st (entropy st)).
  assert (with_entropy (entropy st) st = st) as Heq by by destruct st.
  rewrite Heq in Hm. by rewrite Hm at 1.
Qed.

(** The draws of a run over a collection that is not sampled: one for the
    first pick, none with [prioritizeComplete]. *)
Lemma select_draws (rng : list N) :
  validateOptions options = Return () →
  items ≠ [] → numExamples options ≠ 0 →
  numExamples options ≤ Z.of_nat (length items) →
  Z.of_nat (length items) ≤ the_sampleSize items options →
  entropy (selectDiverseExamples view items options rng).2
  = if the_prioritizeComplete options then rng else drop 1 rng.
Proof.
  intros Hv Hne Hn Hle Hsize. unfold selectDiverseExamples.
  set (st := mkRun rng ∅ []).
  rewrite (selectDiverseExamples_body_run view items options) by done.
  unfold working_set. rewrite bool_decide_eq_false_2 by lia.
  cbn [ret fst snd]. cbv zeta. cbn [snd].
  rewrite blind_entropy by apply blind_select_loop.
  destruct (the_prioritizeComplete options) eqn:Hp.
  - by rewrite blind_entropy by by apply blind_first_pick.
  - unfold first_pick. rewrite Hp. unfold bind, random_index, bind, ret.
    pose proof (Math_random_entropy st) as Hst.
    destruct (Math_random st) as [r st']. simpl in *.
    by destruct (items !! _).
Qed.

End Blind.

(** ** The order of the carriers *)

Section FloatOrder.

Lemma SFltb_irrefl x : SFltb x x = false.
Proof.
  unfold SFltb. destruct x as [[]|[]| |[] m e]; simpl; try done;
    rewrite Z.compare_refl, Pos.compare_cont_refl; done.
Qed.

Lemma SFltb_trans x y z :
  SFltb x y = true → SFltb y z = true → SFltb x z = true.
Proof.
  unfold SFltb.
  destruct x as [[]|[]| |[] mx ex], y as [[]|[]| |[] my ey],
           z as [[]|[]| |[] mz ez]; simpl; try done.
  all: change (Pos.compare_cont Eq mx my) with (Pos.compare mx my);
       change (Pos.compare_cont Eq my mz) with (Pos.compare my mz);
       change (Pos.compare_cont Eq mx mz) with (Pos.compare mx mz).
  all: destruct (Z.compare_spec ex ey), (Z.compare_spec ey ez),
         (Z.compare_spec ex ez); try done; try lia.
  all: destruct (Pos.compare_spec mx my), (Pos.compare_spec my mz),
         (Pos.compare_spec mx mz); simpl; try done; try lia.
Qed.

End FloatOrder.

#[global] Instance float_OrderLaws : OrderLaws float.
Proof.
  split.
  - intros a. simpl. rewrite ltb_spec. apply SFltb_irrefl.
  - intros a b c. simpl. rewrite !ltb_spec. apply SFltb_trans.
Qed.

#[global] Instance exact_OrderLaws : OrderLaws exact.
Proof.
  split.
  - intros [q| | |]; try done. apply qltb_irrefl.
  - intros [p| | |] [q| | |] [r| | |]; simpl; try done.
    unfold Exact.qltb. rewrite !bool_decide_eq_true. apply Qclt_trans.
Qed.

(** ** The greedy choice *)

Section Greedy.

Context {num : Type} `{!Number num} `{!OrderLaws num}.
Context {T : Type} `{!EqDecision T}.
Variable view : T → value num.
Variable items : list T.
Variable options : SelectorOptions num T.

Implicit Types (st : run num T) (selected remainingItems : list T).

Local Abbreviation candidate_score := (candidate_score view options).
Local Abbreviation greedy_choice := (greedy_choice view options).

Lemma hoare_mapM_fmap {A B : Type} (J : run num T → Prop)
    (f : A → State num T B) (g : A → B) (l : list A) :
  (∀ x, x ∈ l → hoare J (f x) (λ y, y = g x)) →
  hoare J (mapM f l) (λ r, r = g <$> l).
Proof.
  induction l as [|x l IH]; intros Hf; simpl.
  - by apply hoare_ret.
  - eapply hoare_bind; [apply Hf; by left|]. intros y ->.
    eapply hoare_bind; [apply IH; intros; apply Hf; by right|].
    intros ys ->. by apply hoare_ret.
Qed.

Lemma hoare_scan_best selected (rest : list T) (i : nat) (b : best) :
  (∀ x, x ∈ selected → x ∈ items) →
  (∀ x, x ∈ rest → x ∈ items) →
  hoare (cache_sound view items options)
    (scan view items options selected rest i b)
    (λ b', (b' = b
            ∨ nltb b.1 b'.1 = true
              ∧ ∃ x j, b'.2 = Some (x, j) ∧ (i ≤ j)%nat
                       ∧ rest !! (j - i)%nat = Some x
                       ∧ b'.1 = candidate_score selected x)
           ∧ ∀ y, y ∈ rest → ngtb (candidate_score selected y) b'.1 = false).
Proof.
  intros Hsel. revert i b.
  induction rest as [|item rest IH]; intros i b Hrest; simpl.
  - apply hoare_ret. split; [by left|]. by intros y ?%elem_of_nil.
  - eapply hoare_bind.
    { apply (hoare_mapM_fmap _ _ (the_distanceFunction view options item)).
      intros s Hs. apply hoare_getCachedDistance_sound;
        [apply Hrest; by left | by apply Hsel]. }
    intros ds ->. fold (candidate_score selected item).
    set (score := candidate_score selected item).
    destruct (ngtb score b.1) eqn:Hgt.
    + eapply hoare_weaken; [apply IH; intros; apply Hrest; by right|].
      intros b' [Hb' Hmax]. simpl in *. split.
      * right. destruct Hb' as [->|(Hlt & x & j & Hx & Hj & Hlook & Hscore)].
        { split; [done|]. exists item, i. by rewrite Nat.sub_diag. }
        split; [by eapply nltb_trans|].
        exists x, j. split; [done|]. split; [lia|]. split; [|done].
        replace (j - i)%nat with (S (j - S i)) by lia. done.
      * intros y [->|Hy]%elem_of_cons; [|by apply Hmax].
        fold score. destruct Hb' as [->|(Hlt & _)]; [apply nltb_irrefl|].
        destruct (ngtb score b'.1) eqn:Hgt'; [|done].
        unfold ngtb in *.
        pose proof (nltb_trans _ _ _ Hlt Hgt') as Hc.
        by rewrite (nltb_irrefl score) in Hc.
    + eapply hoare_weaken; [apply IH; intros; apply Hrest; by right|].
      intros b' [Hb' Hmax]. simpl in *. split.
      * destruct Hb' as [->|(Hlt & x & j & Hx & Hj & Hlook & Hscore)];
          [by left|].
        right. split; [done|].
        exists x, j. split; [done|]. split; [lia|]. split; [|done].
        replace (j - i)%nat with (S (j - S i)) by lia. done.
      * intros y [->|Hy]%elem_of_cons; [|by apply Hmax].
        fold score. destruct Hb' as [->|(Hlt & _)]; [done|].
        destruct (ngtb score b'.1) eqn:Hgt'; [|done].
        unfold ngtb in *. by rewrite (nltb_trans _ _ _ Hlt Hgt') in Hgt.
Qed.

Lemma select_loop_greedy (fuel : nat) selected remainingItems st :
  cache_sound view items options st →
  (∀ x, x ∈ selected ++ remainingItems → x ∈ items) →
  (length remainingItems ≤ fuel)%nat →
  let r := select_loop view items options fuel selected remainingItems st in
  ∃ more rest,
    r.1 = selected ++ more
    ∧ more ++ rest ≡ₚ remainingItems
    ∧ (∀ pre x post, more = pre ++ x :: post →
         greedy_choice (selected ++ pre) x (x :: post ++ rest))
    ∧ (Z.of_nat (length r.1) < numExamples options →
       ∀ y, y ∈ rest → ngtb (candidate_score r.1 y) (of_Z (-1)) = false).
Proof.
  revert selected remainingItems st.
  induction fuel as [|fuel IH]; intros selected remainingItems st Hst Hin Hfuel;
    simpl.
  { exists [], []. destruct remainingItems; [|simpl in Hfuel; lia].
    rewrite app_nil_r. split; [done|]. split; [done|]. split.
    - by intros [|??] ???.
    - by intros _ y ?%elem_of_nil. }
  destruct (bool_decide (Z.of_nat (length selected) < numExamples options)
            && bool_decide (0 < length remainingItems)%nat) eqn:Hguard.
  2: { exists [], remainingItems. simpl. rewrite app_nil_r.
       split; [done|]. split; [done|]. split; [by intros [|??] ???|].
       intros Hlt y Hy.
       apply andb_false_iff in Hguard as [Hg|Hg];
         apply bool_decide_eq_false in Hg; [lia|].
       destruct remainingItems; [by apply elem_of_nil in Hy|simpl in Hg; lia]. }
  unfold bind.
  destruct (hoare_scan_best selected remainingItems 0 (of_Z (-1), None))
    with (st := st) as [Hst' [Hbest Hmax]]; [..|done|].
  { intros x Hx. apply Hin, elem_of_app. by left. }
  { intros x Hx. apply Hin, elem_of_app. by right. }
  destruct (scan view items options selected remainingItems 0
              (of_Z (-1), None) st)
    as [[maxScore [[bestItem bestIndex]|]] st'] eqn:Hscan; simpl in *.
  2: { exists [], remainingItems. rewrite app_nil_r.
       split; [done|]. split; [done|]. split; [by intros [|??] ???|].
       intros _ y Hy.
       destruct Hbest as [[= ->]|(_ & x & j & [=] & _)]. by apply Hmax. }
  destruct Hbest as [[=]|(Hgt & x & j & [= <- <-] & _ & Hlook & ->)].
  rewrite Nat.sub_0_r in Hlook. rewrite splice1_delete.
  apply delete_Permutation in Hlook as Hperm.
  set (remaining' := delete bestIndex remainingItems) in *.
  destruct (IH (selected ++ [bestItem]) remaining' st')
    as (more & rest & Hres & Hrest & Hsteps & Hstop).
  { done. }
  { intros y Hy. apply Hin. rewrite Hperm. revert Hy. set_unfold. tauto. }
  { assert (length remainingItems = S (length remaining')) by by rewrite Hperm.
    lia. }
  exists (bestItem :: more), rest. split; [by rewrite Hres, <-app_assoc|].
  split; [simpl; by rewrite Hrest|]. split; [|done].
  intros [|z pre] c post Heq; simplify_eq/=.
  - rewrite app_nil_r. split; [by left|]. split; [done|].
    intros y Hy. apply Hmax. rewrite Hperm.
    apply elem_of_cons in Hy as [->|Hy]; [by left|]. right. by rewrite <-Hrest.
  - specialize (Hsteps pre c post eq_refl).
    by rewrite <-app_assoc in Hsteps.
Qed.

Lemma select_greedy (rng : list N) :
  validateOptions options = Return () →
  items ≠ [] → numExamples options ≠ 0 →
  numExamples options ≤ Z.of_nat (length items) →
  let working := (working_set items options (mkRun rng ∅ [])).1 in
  ∃ selected rest,
    (selectDiverseExamples view items options rng).1 = Return selected
    ∧ working ⊆+ items
    ∧ (Z.of_nat (length items) ≤ the_sampleSize items options →
       working = items)
    ∧ selected ++ rest ≡ₚ working
    ∧ (∀ pre x post, selected = pre ++ x :: post → pre ≠ [] →
         greedy_choice pre x (x :: post ++ rest))
    ∧ (Z.of_nat (length selected) < numExamples options →
       ∀ y, y ∈ rest →
         ngtb (candidate_score selected y) (of_Z (-1)) = false).
Proof.
  intros Hv Hne Hn Hle working0. subst working0.
  unfold selectDiverseExamples.
  set (st0 := mkRun rng ∅ []).
  destruct (select_run_shape view items options st0 Hv Hne Hn Hle)
    as (working & st1 & x & remainingItems & st2 & more0 & rest0
        & Hwork & Hpick & Hperm & Hloop & Hres & _ & _ & Hkeep).
  destruct (working_set_spec items options st0 Hv Hne)
    as (Hsub & _ & _ & Hall & _).
  rewrite Hwork in Hsub, Hall. simpl in Hsub, Hall.
  destruct (select_loop_greedy (length remainingItems) [x] remainingItems st2)
    as (more & rest & Hmore & Hrest & Hsteps & Hstop); [| |done|].
  { apply (Hkeep (cache_sound view items options)).
    - intros e e' c l HJ. exact HJ.
    - intros a b d _ _. simpl. by rewrite lookup_empty. }
  { intros y Hy. simpl in Hy. rewrite Hperm in Hy.
    by eapply elem_of_submseteq. }
  rewrite Hloop in Hmore, Hstop. simpl in Hmore, Hstop.
  injection Hmore as ->. rewrite Hwork. cbn [fst].
  exists (x :: more), rest. split; [done|]. split; [done|].
  split; [intros Hs; by injection (Hall Hs)|].
  split; [simpl; by rewrite Hrest|]. split; [|done].
  intros [|z pre] c post Heq Hpre; [done|]. simplify_eq/=.
  by apply (Hsteps pre c post).
Qed.

End Greedy.

(** ** The head of a sorted array *)

Section SortHead.

Context {num : Type} `{!Number num}.
Context {T : Type} `{!EqDecision T}.

Variable gt : T → T → bool.
Variable after : T → T → State num T bool.
Variable dom : list T.

Hypothesis after_gt : ∀ a b st, after a b st = (gt a b, st).
Hypothesis gt_consistent : consistent_on gt dom.




End SortHead.

Section MostComplete.

Context {num : Type} `{!Number num}.
Context {T : Type} `{!EqDecision T}.
Variable view : T → value num.
Variable items : list T.
Variable options : SelectorOptions num T.


End MostComplete.

(** ** Key paths *)

Section KeyPathFacts.

Context {num : Type} `{!Number num}.

Lemma split_dots_nonempty (s : string) : split_dots s ≠ [].
Proof.
  destruct s as [|c s]; simpl; [done|].
  case_decide; [done|]. by destruct (split_dots s).
Qed.

Lemma walk_defined (path : string) (current : value num) parts v :
  parts ≠ [] → walk path current parts = Value v → v ≠ VUndefined.
Proof.
  revert current. induction parts as [|part parts IH]; intros current Hne;
    [done|]. simpl.
  destruct (negb (is_object current)); [done|].
  destruct (is_undefined (property current part)) eqn:Hu; [done|].
  destruct parts as [|part' parts'].
  - simpl. intros [= <-] Hv. by rewrite Hv in Hu.
  - by apply IH.
Qed.

Lemma getNestedValue_defined (obj : value num) (p : string) v :
  p ≠ "" → getNestedValue obj (Some p) = Value v → v ≠ VUndefined.
Proof.
  intros Hp. destruct p as [|c p]; [done|]. unfold getNestedValue.
  apply walk_defined, split_dots_nonempty.
Qed.

Lemma getNestedValue_scalar_root (obj : value num) (p : string) :
  p ≠ "" → is_object obj = false →
  ∃ part parts, split_dots p = part :: parts
    ∧ getNestedValue obj (Some p)
      = Raise (mkError ("Invalid path: " +:+ p +:+ " (" +:+ part
                        +:+ " is not an object)")).
Proof.
  intros Hp Hobj. destruct p as [|c p]; [done|]. unfold getNestedValue.
  destruct (split_dots (String c p)) as [|part parts] eqn:Hs.
  { by apply split_dots_nonempty in Hs. }
  exists part, parts. split; [done|]. simpl. by rewrite Hobj.
Qed.

End KeyPathFacts.


(** ** Paths of a flattening *)

Section RoundTrip.

Context {num : Type} `{!Number num}.

Implicit Types (v w : value num) (o acc : flat num) (key part : string).

Lemma value_ind_nested (P : value num → Prop) :
  P VUndefined → P VNull → (∀ b, P (VBool b)) → (∀ n, P (VNum n)) →
  (∀ s, P (VStr s)) →
  (∀ props, Forall (λ kv, P kv.2) props → P (VObj props)) →
  (∀ elems, Forall P elems → P (VArr elems)) →
  ∀ v, P v.
Proof.
  intros Hu Hn Hb Hnum Hs Hobj Harr.
  fix IH 1. intros [| |b|n|s|props|elems].
  - exact Hu.
  - exact Hn.
  - apply Hb.
  - apply Hnum.
  - apply Hs.
  - apply Hobj. induction props as [|[key w] props IHp]; constructor.
    + apply IH.
    + exact IHp.
  - apply Harr. induction elems as [|w elems IHe]; constructor.
    + apply IH.
    + exact IHe.
Qed.

Lemma plain_keys_obj (props : list (string * value num)) :
  plain_keys (VObj props)
  ↔ NoDup props.*1 ∧ Forall (λ kv, plain_key kv.1 ∧ plain_keys kv.2) props.
Proof.
  simpl. apply and_iff_compat_l.
  induction props as [|[key w] props IH]; [by split|].
  rewrite Forall_cons. simpl. tauto.
Qed.

Lemma plain_keys_arr (elems : list (value num)) :
  plain_keys (VArr elems) ↔ Forall plain_keys elems.
Proof.
  simpl. induction elems as [|w elems IH]; [by split|].
  rewrite Forall_cons. tauto.
Qed.

Lemma obj_set_entries (P : string * value num → Prop) o key v :
  Forall P o → P (key, v) → Forall P (obj_set o key v).
Proof.
  intros Ho Hk. induction o as [|[k w] o IH]; simpl.
  - by repeat constructor.
  - inversion_clear Ho. case_decide; subst; constructor; auto.
Qed.

Lemma Object_assign_entries (P : string * value num → Prop)
    (target source : flat num) :
  Forall P target → Forall P source → Forall P (Object_assign target source).
Proof.
  unfold Object_assign. revert target.
  induction source as [|[k v] source IH]; intros target Ht Hs; simpl; [done|].
  inversion_clear Hs. apply IH; [|done]. by apply obj_set_entries.
Qed.

Lemma obj_get_NoDup (props : list (string * value num)) key w :
  NoDup props.*1 → (key, w) ∈ props → obj_get props key = w.
Proof.
  induction props as [|[k v] props IH]; simpl; [by intros _ ?%elem_of_nil|].
  intros [Hk Hnd]%NoDup_cons [[= -> ->]|Hin]%elem_of_cons.
  - by rewrite decide_True.
  - rewrite decide_False; [by apply IH|].
    intros ->. apply Hk. apply list_elem_of_fmap. by exists (key, w).
Qed.

Lemma array_index_pretty (i n : nat) :
  (i < n)%nat → array_index (pretty i) n = Some i.
Proof.
  intros Hi. unfold array_index.
  assert (list_find (λ j : nat, pretty j = pretty i) (seq 0 n) = Some (i, i))
    as ->; [|done].
  apply list_find_Some. split; [by apply lookup_seq_lt|]. split; [done|].
  intros j y [-> _]%lookup_seq Hj Heq. apply (inj pretty) in Heq. simpl in *.
  lia.
Qed.

Lemma split_dots_app (s t : string) :
  split_dots (s +:+ "." +:+ t) = split_dots s ++ split_dots t.
Proof.
  induction s as [|c s IH]; [done|].
  change (String c s +:+ "." +:+ t) with (String c (s +:+ "." +:+ t)).
  simpl. rewrite IH. case_decide; [done|].
  pose proof (split_dots_nonempty s). by destruct (split_dots s).
Qed.

Lemma split_dots_dot_free (s : string) : dot_free s → split_dots s = [s].
Proof.
  induction s as [|c s IH]; [done|]. intros [Hc Hs]. simpl.
  rewrite decide_False by done. by rewrite IH.
Qed.

Lemma split_dots_join (pre : string) (parts : list string) :
  pre ≠ "" → Forall plain_key parts →
  split_dots (join_path pre parts) = split_dots pre ++ parts.
Proof.
  intros Hp Hparts. revert pre Hp.
  induction Hparts as [|part parts [Hne Hfree] _ IH]; intros pre Hp; simpl.
  - by rewrite app_nil_r.
  - rewrite IH by by destruct pre.
    destruct pre as [|c pre]; [done|].
    change (fullKey (String c pre) part)
      with (String c pre +:+ "." +:+ part).
    rewrite split_dots_app, (split_dots_dot_free part) by done.
    by rewrite <-app_assoc.
Qed.

Lemma pretty_N_go_dot_free (x : N) (s : string) :
  dot_free s → dot_free (pretty_N_go x s).
Proof.
  revert s. induction (N.lt_wf_0 x) as [x _ IH]; intros s Hs.
  assert (x = 0 ∨ 0 < x)%N as [->|Hx] by lia.
  - by rewrite pretty_N_go_0.
  - rewrite pretty_N_go_step by done. apply IH.
    { by apply N.div_lt. }
    split; [|done]. unfold pretty_N_char. by repeat case_match.
Qed.

Lemma pretty_N_go_nonempty (x : N) (s : string) :
  s ≠ "" → pretty_N_go x s ≠ "".
Proof.
  revert s. induction (N.lt_wf_0 x) as [x _ IH]; intros s Hs.
  assert (x = 0 ∨ 0 < x)%N as [->|Hx] by lia.
  - by rewrite pretty_N_go_0.
  - rewrite pretty_N_go_step by done. apply IH; [by apply N.div_lt|done].
Qed.

Lemma pretty_index_plain (i : nat) : plain_key (pretty i).
Proof.
  unfold pretty, pretty_nat, pretty, pretty_N. case_decide; [done|].
  split.
  - assert (0 < N.of_nat i)%N as Hi by lia.
    rewrite pretty_N_go_step by done. by apply pretty_N_go_nonempty.
  - by apply pretty_N_go_dot_free.
Qed.

Lemma reduce_obj_entries (Q : string * value num → Prop) (prefix : string)
    (ps : list (string * value num)) acc :
  Forall Q acc →
  Forall (λ kv, if is_object kv.2
                then Forall Q (flattenObject kv.2 (fullKey prefix kv.1))
                else Q (fullKey prefix kv.1, kv.2)) ps →
  Forall Q
    ((fix reduce (ps : list (string * value num)) (acc : flat num)
        : flat num :=
        match ps with
        | [] => acc
        | (key, v) :: ps' =>
            reduce ps'
              (if is_object v
               then Object_assign acc (flattenObject v (fullKey prefix key))
               else obj_set acc (fullKey prefix key) v)
        end) ps acc).
Proof.
  intros Hacc Hps. revert acc Hacc.
  induction Hps as [|[key w] ps Hw _ IH]; intros acc Hacc; [done|].
  apply IH. simpl in Hw. destruct (is_object w).
  - by apply Object_assign_entries.
  - by apply obj_set_entries.
Qed.

Lemma reduce_arr_entries (Q : string * value num → Prop) (prefix : string)
    (es : list (value num)) (i : nat) acc :
  Forall Q acc →
  (∀ j w, es !! j = Some w →
     if is_object w
     then Forall Q (flattenObject w (fullKey prefix (pretty (i + j)%nat)))
     else Q (fullKey prefix (pretty (i + j)%nat), w)) →
  Forall Q
    ((fix reduce (es : list (value num)) (i : nat) (acc : flat num)
        : flat num :=
        match es with
        | [] => acc
        | v :: es' =>
            reduce es' (S i)
              (if is_object v
               then Object_assign acc
                      (flattenObject v (fullKey prefix (pretty i)))
               else obj_set acc (fullKey prefix (pretty i)) v)
        end) es i acc).
Proof.
  revert i acc. induction es as [|w es IH]; intros i acc Hacc Hes; [done|].
  apply IH.
  - specialize (Hes 0%nat w eq_refl). rewrite Nat.add_0_r in Hes.
    destruct (is_object w).
    + by apply Object_assign_entries.
    + by apply obj_set_entries.
  - intros j w' Hj. specialize (Hes (S j) w' Hj).
    by replace (S i + j)%nat with (i + S j)%nat by lia.
Qed.

(** Every entry of a flattening is reached by walking its path. *)
Lemma flattenObject_walk (path : string) :
  ∀ v, plain_keys v → ∀ prefix,
    Forall (λ kv, kv.2 ≠ VUndefined →
              ∃ parts, parts ≠ [] ∧ Forall plain_key parts
                ∧ kv.1 = join_path prefix parts
                ∧ walk path v parts = Value kv.2)
      (flattenObject v prefix).
Proof.
  intros v. induction v as [| |b|n|s|props IH|elems IH] using value_ind_nested;
    intros Hwf prefix; try by constructor.
  - apply plain_keys_obj in Hwf as [Hnd Hkeys].
    cbn [flattenObject]. apply reduce_obj_entries; [constructor|].
    apply Forall_forall. intros [key w] Hin.
    rewrite Forall_forall in IH. rewrite Forall_forall in Hkeys.
    destruct (Hkeys _ Hin) as [Hkey Hw]. specialize (IH _ Hin Hw).
    cbn [fst snd] in *.
    assert (property (VObj props) key = w) as Hget
      by by apply obj_get_NoDup.
    destruct (is_object w) eqn:Hobj.
    + eapply Forall_impl; [apply IH|].
      intros [k x] Hx Hdef. cbn [fst snd] in *.
      destruct (Hx Hdef) as (parts & Hne & Hparts & -> & Hwalk).
      exists (key :: parts). split; [done|]. split; [by constructor|].
      split; [done|]. cbn [walk is_object negb]. rewrite Hget.
      by destruct w.
    + intros Hdef. exists [key]. split; [done|].
      split; [by constructor|]. split; [done|].
      cbn [walk is_object negb]. rewrite Hget. by destruct w.
  - apply plain_keys_arr in Hwf.
    cbn [flattenObject]. apply reduce_arr_entries; [constructor|].
    intros j w Hj. cbn [Nat.add].
    rewrite Forall_forall in IH. rewrite Forall_forall in Hwf.
    pose proof (list_elem_of_lookup_2 _ _ _ Hj) as Hin.
    specialize (IH _ Hin (Hwf _ Hin)).
    assert (property (VArr elems) (pretty j) = w) as Hget.
    { simpl. rewrite array_index_pretty by by eapply lookup_lt_Some.
      by rewrite Hj. }
    pose proof (pretty_index_plain j) as Hkey.
    destruct (is_object w) eqn:Hobj.
    + eapply Forall_impl; [apply IH|].
      intros [k x] Hx Hdef. cbn [fst snd] in *.
      destruct (Hx Hdef) as (parts & Hne & Hparts & -> & Hwalk).
      exists (pretty j :: parts). split; [done|]. split; [by constructor|].
      split; [done|]. cbn [walk is_object negb]. rewrite Hget.
      by destruct w.
    + intros Hdef. exists [pretty j]. split; [done|].
      split; [by constructor|]. split; [done|].
      cbn [walk is_object negb]. rewrite Hget. by destruct w.
Qed.

(** The path of every defined leaf of a flattening leads
    [getNestedValue] to that leaf. *)
Lemma getNestedValue_flattened (obj : value num) key v :
  plain_keys obj →
  (key, v) ∈ getFlattenedObject obj → v ≠ VUndefined →
  getNestedValue obj (Some key) = Value v.
Proof.
  intros Hwf Hin Hdef.
  pose proof (flattenObject_walk key obj Hwf "") as Hall.
  rewrite Forall_forall in Hall.
  destruct (Hall _ Hin Hdef) as (parts & Hne & Hparts & Hkey & Hwalk).
  cbn [fst snd] in *. destruct parts as [|part parts]; [done|].
  inversion_clear Hparts as [|?? [Hp Hfree] Hparts'].
  cbn [join_path] in Hkey. change (fullKey "" part) with part in Hkey.
  assert (split_dots key = part :: parts) as Hsplit.
  { rewrite Hkey, split_dots_join by done.
    by rewrite split_dots_dot_free. }
  unfold getNestedValue. destruct key as [|c key].
  { by destruct part. }
  by rewrite Hsplit.
Qed.

End RoundTrip.

(** * Further properties *)

(** ** Flattening, completeness and distance *)

(** X1.  Every leaf of a flattened record is a scalar: no object and no array
    is left as a value, whatever the nesting and the prefix. *)
Theorem X1_flattened_leaves_are_scalars {num : Type} `{!Number num}
    (obj : value num) (pre : string) :
  Forall is_scalar (Object_values (flattenObject obj pre)).
Proof. apply flattenObject_scalar. Qed.

(** X2.  A record without nesting (pairwise different property names, all
    of them ordinary, and scalar values) is its own flattening, in the same
    order. *)
Theorem X2_flat_record_is_its_flattening {num : Type} `{!Number num}
    (props : list (string * value num)) :
  NoDup props.*1 → Forall ordinary_key props.*1 →
  Forall is_scalar props.*2 →
  getFlattenedObject (VObj props) = props.
Proof. intros Hdup _. by apply getFlattenedObject_flat. Qed.

(** X3.  Under a prefix that is not empty, every path of a flattening is the
    prefix, a dot and a rest. *)
Theorem X3_paths_carry_the_prefix {num : Type} `{!Number num}
    (obj : value num) (pre : string) :
  pre ≠ "" →
  Forall (λ key, ∃ rest, key = pre +:+ "." +:+ rest)
    (Object_keys (flattenObject obj pre)).
Proof. apply flattenObject_prefix. Qed.

(** X4.  In exact arithmetic the completeness of a record with at least one
    flattened path is a rational between [0] and [1]; it is [1] exactly when
    no leaf is [null] or [undefined], and [0] exactly when every leaf is. *)
Theorem X4_completeness_between_0_and_1 (obj : value exact) :
  getFlattenedObject obj ≠ [] →
  ∃ q : Qc, calculateCompleteness obj = Fin q
    ∧ (0 ≤ q ≤ 1)%Qc
    ∧ (q = 1%Qc ↔ Forall (λ v, is_defined v = true)
                     (Object_values (getFlattenedObject obj)))
    ∧ (q = 0%Qc ↔ Forall (λ v, is_defined v = false)
                     (Object_values (getFlattenedObject obj))).
Proof. apply completeness_exact_range. Qed.

(** X5.  Two records that share no flattened path are at distance [1]: no
    path is a valid comparison. *)
Theorem X5_disjoint_records_at_distance_1 {num : Type} `{!Number num}
    (obj1 obj2 : value num) :
  (∀ key, key ∈ Object_keys (getFlattenedObject obj1) →
          key ∉ Object_keys (getFlattenedObject obj2)) →
  defaultDistance obj1 obj2 = of_Z 1.
Proof. apply defaultDistance_disjoint. Qed.

(** ** Samplers *)

Section SamplerProperties.

Context {num : Type} `{!Number num}.
Context {T : Type} `{!EqDecision T}.

Implicit Types (items : list T) (st : run num T).

(** X7.  [reservoirSample] returns [min(sampleSize, |items|)] elements taken
    from pairwise different positions of [items], draws one random number
    for each item past the first [sampleSize], and touches neither the cache
    nor the calls. *)
Theorem X7_reservoirSample items (s : Z) st :
  0 ≤ s →
  let r := reservoirSample items s st in
  r.1 ⊆+ items
  ∧ length r.1 = Z.to_nat (Z.min s (Z.of_nat (length items)))
  ∧ entropy r.2 = drop (length items - Z.to_nat s) (entropy st)
  ∧ distanceCache r.2 = distanceCache st ∧ calls r.2 = calls st.
Proof. apply reservoirSample_spec. Qed.

(** X8.  [getRandomSample] returns the first [sampleSize] elements of a
    permutation of [items], whatever the comparator draws. *)
Theorem X8_getRandomSample items (s : Z) st :
  0 ≤ s →
  let r := getRandomSample items s st in
  (∃ shuffled, shuffled ≡ₚ items ∧ r.1 = take (Z.to_nat s) shuffled)
  ∧ distanceCache r.2 = distanceCache st ∧ calls r.2 = calls st.
Proof. apply getRandomSample_spec. Qed.

(** X9.  Whichever sampler [getEfficientSample] picks, the sample has
    [min(sampleSize, |items|)] elements from pairwise different positions of
    [items]. *)
Theorem X9_getEfficientSample items (s : Z) st :
  0 ≤ s →
  let r := getEfficientSample items s st in
  r.1 ⊆+ items
  ∧ length r.1 = Z.to_nat (Z.min s (Z.of_nat (length items)))
  ∧ distanceCache r.2 = distanceCache st ∧ calls r.2 = calls st.
Proof. apply getEfficientSample_spec. Qed.

End SamplerProperties.

(** ** Runs of the selector *)

Section RunProperties.

Context {num : Type} `{!Number num}.
Context {T : Type} `{!EqDecision T}.
Variable view : T → value num.

Implicit Types (items : list T) (options : SelectorOptions num T).
Implicit Types (rng : list N).

(** X10.  A run that passes validation and the guards on the count returns
    at least one element and at most [max(1, numExamples)], never more than
    the sample size in force, all from pairwise different positions of the
    collection. *)
Theorem X10_result_within_bounds items options rng :
  validateOptions options = Return () →
  items ≠ [] → numExamples options ≠ 0 →
  numExamples options ≤ Z.of_nat (length items) →
  ∃ first more,
    (selectDiverseExamples view items options rng).1 = Return (first :: more)
    ∧ first :: more ⊆+ items
    ∧ Z.of_nat (length (first :: more)) ≤ Z.max 1 (numExamples options)
    ∧ Z.of_nat (length (first :: more)) ≤ the_sampleSize items options.
Proof.
  intros Hv Hne Hn Hle. unfold selectDiverseExamples.
  set (st0 := mkRun rng ∅ []).
  destruct (select_run_shape view items options st0 Hv Hne Hn Hle)
    as (working & st1 & x & remainingItems & st2 & more & rest
        & Hwork & _ & Hperm & _ & Hres & Hrest & Hlen & _).
  destruct (working_set_spec items options st0 Hv Hne)
    as (Hsub & _ & Hsize & _).
  rewrite Hwork in Hsub, Hsize. simpl in Hsub, Hsize.
  assert (first_more : (x :: more) ++ rest ≡ₚ working)
    by (simpl; by rewrite Hrest).
  exists x, more. split; [done|]. split; [|split; [done|]].
  - trans ((x :: more) ++ rest); [by apply submseteq_inserts_r|].
    by rewrite first_more.
  - assert (length ((x :: more) ++ rest) = length working) as Hl
      by by rewrite first_more.
    rewrite length_app in Hl.
    pose proof (the_sampleSize_pos items options Hv Hne). lia.
Qed.

(** X11.  After any run, every distance held in the cache under the key of a
    pair of records of the collection is the value of the distance function
    on that pair. *)
Theorem X11_cached_distances_are_sound items options rng :
  cache_sound view items options
    (selectDiverseExamples view items options rng).2.
Proof. apply cache_sound_run. Qed.

(** X12.  Every evaluation of the distance function in a run measures a
    record of the collection against a record of the result, and there are
    at most [|items| * |result|] of them; a run that raises makes none.
    When no object occurs twice in the collection, no record is measured
    against itself. *)
Theorem X12_calls_stay_within_the_result items options rng :
  let r := selectDiverseExamples view items options rng in
  match r.1 with
  | Return selected =>
      (∀ x y, (x, y) ∈ calls r.2 → x ∈ items ∧ y ∈ selected)
      ∧ (length (calls r.2) ≤ length items * length selected)%nat
  | Throw _ => calls r.2 = []
  end
  ∧ (NoDup items → ∀ x y, (x, y) ∈ calls r.2 → x ≠ y).
Proof.
  intros r. split; [apply select_calls_within|].
  intros Hnd x y Hxy.
  destruct (select_calls_follow view items options rng Hnd)
    as [selected Hfollow].
  by destruct (Hfollow x y Hxy) as (_ & _ & _ & Hne & _).
Qed.

(** X13.  With [prioritizeComplete] and a collection that is not sampled,
    the result does not depend on the random draws. *)
Theorem X13_prioritized_run_is_deterministic items options rng rng' :
  the_prioritizeComplete options = true →
  Z.of_nat (length items) ≤ the_sampleSize items options →
  (selectDiverseExamples view items options rng).1
  = (selectDiverseExamples view items options rng').1.
Proof. apply select_blind. Qed.

(** X14.  A run over a collection that is not sampled draws one random
    number, for the first pick, and none with [prioritizeComplete]. *)
Theorem X14_draws_of_an_unsampled_run items options rng :
  validateOptions options = Return () →
  items ≠ [] → numExamples options ≠ 0 →
  numExamples options ≤ Z.of_nat (length items) →
  Z.of_nat (length items) ≤ the_sampleSize items options →
  entropy (selectDiverseExamples view items options rng).2
  = if the_prioritizeComplete options then rng else drop 1 rng.
Proof. apply select_draws. Qed.

(** X15.  The selection is greedy.  The result and the records left over
    make up the working set of the run (the sample drawn from the
    collection, or the collection itself when it is not sampled); every element of the result after the first had, when it was picked, a
    score above [-1] that no record then left beat; and a result shorter
    than [numExamples] means that no record left has a score above [-1].
    The score of a candidate is computed from the least of its distances to
    the records selected before. *)
Theorem X15_selection_is_greedy `{!OrderLaws num} items options rng :
  validateOptions options = Return () →
  items ≠ [] → numExamples options ≠ 0 →
  numExamples options ≤ Z.of_nat (length items) →
  let working := (working_set items options (mkRun rng ∅ [])).1 in
  ∃ selected rest,
    (selectDiverseExamples view items options rng).1 = Return selected
    ∧ working ⊆+ items
    ∧ (Z.of_nat (length items) ≤ the_sampleSize items options →
       working = items)
    ∧ selected ++ rest ≡ₚ working
    ∧ (∀ pre x post, selected = pre ++ x :: post → pre ≠ [] →
         greedy_choice view options pre x (x :: post ++ rest))
    ∧ (Z.of_nat (length selected) < numExamples options →
       ∀ y, y ∈ rest →
         ngtb (candidate_score view options selected y) (of_Z (-1)) = false).
Proof. apply select_greedy. Qed.

(** X16.  When at most one example is wanted, the run returns the first pick
    alone and never evaluates the distance function. *)
Theorem X16_one_example_needs_no_distance items options rng :
  validateOptions options = Return () →
  items ≠ [] → numExamples options ≠ 0 → numExamples options ≤ 1 →
  ∃ first,
    first ∈ items
    ∧ selectDiverseExamples view items options rng
      = (Return [first],
         mkRun (entropy (selectDiverseExamples view items options rng).2)
           ∅ []).
Proof.
  intros Hv Hne Hn Hone. unfold selectDiverseExamples.
  set (st0 := mkRun rng ∅ []).
  assert (numExamples options ≤ Z.of_nat (length items)) as Hle.
  { destruct items; [done|]. simpl. lia. }
  destruct (select_run_shape view items options st0 Hv Hne Hn Hle)
    as (working & st1 & x & remainingItems & st2 & more & rest
        & Hwork & _ & Hperm & Hloop & Hres & _ & Hlen & Hkeep).
  destruct (working_set_spec items options st0 Hv Hne) as (Hsub & _).
  rewrite Hwork in Hsub. simpl in Hsub.
  assert (more = []) as ->.
  { destruct more; [done|]. simpl in Hlen. lia. }
  exists x. split.
  { eapply elem_of_submseteq; [|exact Hsub]. rewrite <-Hperm. by left. }
  assert ((selectDiverseExamples_body view items options st0).2 = st2) as Hst.
  { destruct (length remainingItems) as [|fuel]; simpl in Hloop.
    - by injection Hloop.
    - rewrite (bool_decide_eq_false_2 (Z.of_nat (length [x]) < _)) in Hloop
        by (simpl; lia).
      by injection Hloop. }
  destruct (Hkeep (λ st, distanceCache st = ∅ ∧ calls st = []))
    as [Hcache Hcalls]; [by intros ???? HJ | done |].
  destruct (selectDiverseExamples_body view items options st0) as [c st].
  simpl in *. subst c st. destruct st2. simpl in *. by subst.
Qed.

End RunProperties.


(** ** Key paths *)

Section KeyPathProperties.

Context {num : Type} `{!Number num}.

(** X18.  With a path that is not empty, [getNestedValue] never returns
    [undefined]: it returns a defined value or raises. *)
Theorem X18_getNestedValue_is_defined (obj : value num) (p : string) v :
  p ≠ "" → getNestedValue obj (Some p) = Value v → v ≠ VUndefined.
Proof. apply getNestedValue_defined. Qed.

(** X19.  On a root that is no object (a number, a string, a boolean,
    [null], [undefined]) every path that is not empty raises, naming the
    first component of the path. *)
Theorem X19_getNestedValue_of_a_scalar (obj : value num) (p : string) :
  p ≠ "" → is_object obj = false →
  ∃ part parts, split_dots p = part :: parts
    ∧ getNestedValue obj (Some p)
      = Raise (mkError ("Invalid path: " +:+ p +:+ " (" +:+ part
                        +:+ " is not an object)")).
Proof. apply getNestedValue_scalar_root. Qed.

(** X20.  The paths of a flattening are key paths: when the property names
    of [obj] are, at every level, pairwise different, not empty and without
    dot, [getNestedValue] follows the path of every defined leaf of the
    flattening to that leaf. *)
Theorem X20_flattened_paths_lead_to_their_leaves (obj : value num) key v :
  plain_keys obj →
  (key, v) ∈ getFlattenedObject obj → v ≠ VUndefined →
  getNestedValue obj (Some key) = Value v.
Proof. apply getNestedValue_flattened. Qed.

End KeyPathProperties.

(** ** The properties on concrete inputs *)

(** X2 on the first record of the tests. *)
Lemma X2_flat_record_is_its_flattening_witness :
  getFlattenedObject (Sample.person 1 "John" 25 "NY")
  = [("id", VNum (of_Z 1)); ("name", VStr "John");
     ("age", VNum (of_Z 25)); ("city", VStr "NY")].
Proof.
  apply (X2_flat_record_is_its_flattening
           [("id", VNum (of_Z 1 : float)); ("name", VStr "John");
            ("age", VNum (of_Z 25)); ("city", VStr "NY")]).
  - apply (bool_decide_unpack _). reflexivity.
  - repeat constructor; discriminate.
  - repeat constructor.
Defined.

(** X3 on [{a: 1}] under the prefix [user]. *)
Lemma X3_paths_carry_the_prefix_witness :
  Forall (λ key, ∃ rest, key = "user" +:+ "." +:+ rest)
    (Object_keys (flattenObject (Sample.just_a 1 : value float) "user")).
Proof. apply X3_paths_carry_the_prefix. discriminate. Defined.

(** X4 on [{a: 1, b: null}]. *)
Lemma X4_completeness_between_0_and_1_witness :
  ∃ q : Qc, calculateCompleteness (Nested.half : value exact) = Fin q
    ∧ (0 ≤ q ≤ 1)%Qc
    ∧ (q = 1%Qc ↔ Forall (λ v, is_defined v = true)
                     (Object_values (getFlattenedObject
                                       (Nested.half : value exact))))
    ∧ (q = 0%Qc ↔ Forall (λ v, is_defined v = false)
                     (Object_values (getFlattenedObject
                                       (Nested.half : value exact)))).
Proof. apply X4_completeness_between_0_and_1. discriminate. Defined.

(** X5 on [{a: 1}] and [{data: {items: [1, 2]}, name: "x"}]. *)
Lemma X5_disjoint_records_at_distance_1_witness :
  defaultDistance (Sample.just_a 1 : value float) Nested.response = of_Z 1.
Proof.
  apply X5_disjoint_records_at_distance_1.
  intros key Hkey. apply list_elem_of_singleton in Hkey as ->.
  apply (bool_decide_unpack _). reflexivity.
Defined.

(** X7 to X9 on four items and a sample of two. *)
Lemma X7_reservoirSample_witness :
  let r := reservoirSample (num := float) Sample.four 2
             (mkRun [Sample.low; Sample.high] ∅ []) in
  r.1 ⊆+ Sample.four
  ∧ length r.1 = Z.to_nat (Z.min 2 (Z.of_nat (length Sample.four)))
  ∧ entropy r.2
    = drop (length Sample.four - Z.to_nat 2) [Sample.low; Sample.high]
  ∧ distanceCache r.2 = ∅ ∧ calls r.2 = [].
Proof. apply (X7_reservoirSample (num := float) Sample.four 2). lia. Defined.

Lemma X8_getRandomSample_witness :
  let r := getRandomSample (num := float) Sample.four 2
             (mkRun [Sample.low; Sample.high] ∅ []) in
  (∃ shuffled, shuffled ≡ₚ Sample.four ∧ r.1 = take (Z.to_nat 2) shuffled)
  ∧ distanceCache r.2 = ∅ ∧ calls r.2 = [].
Proof. apply (X8_getRandomSample (num := float) Sample.four 2). lia. Defined.

Lemma X9_getEfficientSample_witness :
  let r := getEfficientSample (num := float) Sample.four 2
             (mkRun [Sample.low; Sample.high] ∅ []) in
  r.1 ⊆+ Sample.four
  ∧ length r.1 = Z.to_nat (Z.min 2 (Z.of_nat (length Sample.four)))
  ∧ distanceCache r.2 = ∅ ∧ calls r.2 = [].
Proof. apply (X9_getEfficientSample (num := float) Sample.four 2). lia. Defined.

(** X10 on the four records of the tests, three examples wanted. *)
Lemma X10_result_within_bounds_witness :
  ∃ first more,
    (selectDiverseExamples Sample.view Sample.four
       (Sample.options 3 None None) []).1 = Return (first :: more)
    ∧ first :: more ⊆+ Sample.four
    ∧ Z.of_nat (length (first :: more)) ≤ Z.max 1 3
    ∧ Z.of_nat (length (first :: more))
      ≤ the_sampleSize Sample.four (Sample.options 3 None None).
Proof.
  apply (X10_result_within_bounds Sample.view Sample.four
           (Sample.options 3 None None) []).
  - reflexivity.
  - discriminate.
  - simpl. lia.
  - simpl. lia.
Defined.

(** X13 on the four records of the tests, with and without a draw. *)
Lemma X13_prioritized_run_is_deterministic_witness :
  (selectDiverseExamples Sample.view Sample.four (Sample.prioritizing 2) []).1
  = (selectDiverseExamples Sample.view Sample.four (Sample.prioritizing 2)
       [Sample.high]).1.
Proof.
  apply (X13_prioritized_run_is_deterministic Sample.view Sample.four
           (Sample.prioritizing 2)).
  - reflexivity.
  - vm_compute. discriminate.
Defined.

(** X14 on the four records of the tests. *)
Lemma X14_draws_of_an_unsampled_run_witness :
  entropy (selectDiverseExamples Sample.view Sample.four
             (Sample.options 2 None None) [Sample.high; Sample.low]).2
  = [Sample.low].
Proof.
  apply (X14_draws_of_an_unsampled_run Sample.view Sample.four
           (Sample.options 2 None None) [Sample.high; Sample.low]).
  - reflexivity.
  - discriminate.
  - simpl. lia.
  - simpl. lia.
  - vm_compute. discriminate.
Defined.

(** X15 on the four records of the tests, sampled down to three, in
    binary64. *)
Lemma X15_selection_is_greedy_witness :
  let working :=
    (working_set Sample.four (Sample.options 3 (Some 3) None)
       (mkRun [Sample.high] ∅ [])).1 in
  ∃ selected rest,
    (selectDiverseExamples Sample.view Sample.four
       (Sample.options 3 (Some 3) None) [Sample.high]).1 = Return selected
    ∧ working ⊆+ Sample.four
    ∧ (Z.of_nat (length Sample.four)
       ≤ the_sampleSize Sample.four (Sample.options 3 (Some 3) None) →
       working = Sample.four)
    ∧ selected ++ rest ≡ₚ working
    ∧ (∀ pre x post, selected = pre ++ x :: post → pre ≠ [] →
         greedy_choice Sample.view (Sample.options 3 (Some 3) None) pre x
           (x :: post ++ rest))
    ∧ (Z.of_nat (length selected) < 3 →
       ∀ y, y ∈ rest →
         ngtb (candidate_score Sample.view (Sample.options 3 (Some 3) None)
                 selected y) (of_Z (-1)) = false).
Proof.
  apply (X15_selection_is_greedy Sample.view Sample.four
           (Sample.options 3 (Some 3) None) [Sample.high]).
  - reflexivity.
  - discriminate.
  - simpl. lia.
  - simpl. lia.
Defined.

(** X16 on the four records of the tests, one example wanted. *)
Lemma X16_one_example_needs_no_distance_witness :
  ∃ first,
    first ∈ Sample.four
    ∧ selectDiverseExamples Sample.view Sample.four
        (Sample.options 1 None None) [Sample.high]
      = (Return [first],
         mkRun (entropy (selectDiverseExamples Sample.view Sample.four
                           (Sample.options 1 None None) [Sample.high]).2)
           ∅ []).
Proof.
  apply (X16_one_example_needs_no_distance Sample.view Sample.four
           (Sample.options 1 None None) [Sample.high]).
  - reflexivity.
  - discriminate.
  - simpl. lia.
  - simpl. lia.
Defined.


(** X18 to X20 on [{data: {items: [1, 2]}, name: "x"}]. *)
Lemma X18_getNestedValue_is_defined_witness :
  VArr [VNum (of_Z 1 : float); VNum (of_Z 2)] ≠ VUndefined.
Proof.
  apply (X18_getNestedValue_is_defined Nested.response "data.items").
  - discriminate.
  - reflexivity.
Defined.

Lemma X19_getNestedValue_of_a_scalar_witness :
  ∃ part parts, split_dots "data.items" = part :: parts
    ∧ getNestedValue (VNum (of_Z 1 : float)) (Some "data.items")
      = Raise (mkError ("Invalid path: " +:+ "data.items" +:+ " (" +:+ part
                        +:+ " is not an object)")).
Proof.
  apply X19_getNestedValue_of_a_scalar.
  - discriminate.
  - reflexivity.
Defined.

Lemma X20_flattened_paths_lead_to_their_leaves_witness :
  getNestedValue (Nested.response : value float) (Some "data.items.1")
  = Value (VNum (of_Z 2)).
Proof.
  apply X20_flattened_paths_lead_to_their_leaves.
  - split.
    + apply (bool_decide_unpack _). reflexivity.
    + repeat split; try discriminate. apply (bool_decide_unpack _).
      reflexivity.
  - vm_compute. repeat constructor.
  - discriminate.
Defined.
